(** * Conversation synchronisation client: a shallow embedding of
      [src/components/Chat.tsx] and of the profile look-ups of the
      offers and profile views.

    The chat component keeps a WebSocket to the messaging endpoint, merges
    inbound frames into a message array (deduplicated by [message_id],
    re-sorted by [sent_at]), projects that array per correspondent, groups
    the projection under day headers and sends trimmed drafts.

    JavaScript values are modelled at run time (TypeScript interfaces are
    erased): strings are sequences of UTF-16 code units, numbers are
    integers, a function that can raise returns a [Result].  What the
    source takes from the platform without fixing it ([JSON.parse],
    [Date], the [WebSocket] constructor) is grouped in an interface, so
    that every statement holds for any platform; sockets behave as the
    WebSocket standard describes.

    Besides the message store the file embeds what the chat view shows
    (the connection indicator, the send button, the preview under a name
    and the side of a bubble), the stars, the review form and the author
    look-ups of the profile view, the status changes, deletions and
    received offers of the offers view, and from [src/App.tsx] the
    session provider, the order search and the image upload. *)

From Stdlib Require Import ZArith Lia String Ascii.
From HB Require Import structures.
From mathcomp Require Import ssreflect ssrfun ssrbool eqtype ssrnat seq path.

Set Warnings "-notation-overridden,-rewrite-rw,-deprecated,-register-all".
Set Implicit Arguments.
Unset Strict Implicit.
Unset Printing Implicit Defensive.

(* ================================================================== *)
(** * Part I.  The embedding *)

(* ------------------------------------------------------------------ *)
(** ** Decidable equality of integers ([N] has one in [ssrnat]) *)

Lemma Z_eqP : Equality.axiom Z.eqb.
Proof. by move=> x y; apply: (iffP idP) => [/Z.eqb_spec|->]; rewrite ?Z.eqb_refl. Qed.
HB.instance Definition _ := hasDecEq.Build Z Z_eqP.

(* ------------------------------------------------------------------ *)
(** ** Strings *)

(** A JavaScript string is a sequence of UTF-16 code units. *)
Definition JsString := seq N.

(** Literals of the source, written in ASCII. *)
Fixpoint js (s : string) : JsString :=
  match s with
  | EmptyString => [::]
  | String c r => N_of_ascii c :: js r
  end.

(** ECMAScript [WhiteSpace] and [LineTerminator] code points, the set
    [String.prototype.trim] strips: TAB, LF, VT, FF, CR, SP, NBSP, the
    space separators (Zs), LS, PS and the byte order mark. *)
Definition isWhiteSpace (c : N) : bool :=
  [|| c == 9%num, c == 10%num, c == 11%num, c == 12%num, c == 13%num,
      c == 32%num, c == 160%num, c == 5760%num,
      (N.leb 8192 c && N.leb c 8202), c == 8232%num, c == 8233%num,
      c == 8239%num, c == 8287%num, c == 12288%num | c == 65279%num].

Fixpoint trimStart (s : JsString) : JsString :=
  match s with
  | c :: r => if isWhiteSpace c then trimStart r else s
  | [::] => [::]
  end.

Definition trimEnd (s : JsString) : JsString := rev (trimStart (rev s)).

(** [s.trim()] *)
Definition trim (s : JsString) : JsString := trimEnd (trimStart s).

(** The string starts or ends with a white space character. *)
Definition edgeSpace (t : JsString) : bool :=
  if t is c :: r then isWhiteSpace c || isWhiteSpace (last c r) else false.

(* ------------------------------------------------------------------ *)
(** ** Exceptions *)

(** The outcome of evaluating an expression that may raise. *)
Inductive Result (A : Type) : Type :=
| Ok (a : A)
| Throw.
Arguments Throw {A}.

Definition bind {A B} (r : Result A) (k : A -> Result B) : Result B :=
  match r with
  | Ok a => k a
  | Throw => Throw
  end.

Notation "x <~ r ;; k" := (bind r (fun x => k))
  (at level 61, r at next level, right associativity).

(** [try { body } catch (error) { handler }] *)
Definition try_catch {A} (body : Result A) (handler : A) : A :=
  match body with
  | Ok a => a
  | Throw => handler
  end.

(* ------------------------------------------------------------------ *)
(** ** Run-time values *)

(** The values [JSON.parse] and [response.json()] produce.  An object is
    the list of its own properties. *)
Inductive JsValue : Type :=
| JNull
| JBool (b : bool)
| JNum (n : Z)
| JStr (s : JsString)
| JArr (a : seq JsValue)
| JObj (o : seq (JsString * JsValue)).

(** Own property [k] of an object; [None] is [undefined]. *)
Fixpoint lookup (k : JsString) (o : seq (JsString * JsValue)) : option JsValue :=
  match o with
  | [::] => None
  | (k', v) :: r => if k' == k then Some v else lookup k r
  end.

(** [v.k] for a property name [k] no primitive wrapper defines: reading a
    property of [null] raises a TypeError, of a primitive or an array gives
    [undefined]. *)
Definition getProp (v : JsValue) (k : JsString) : Result (option JsValue) :=
  match v with
  | JNull => Throw
  | JObj o => Ok (lookup k o)
  | _ => Ok None
  end.

(** [a === b] on values read from parsed frames: primitives compare by
    value, [undefined] equals itself, and two objects (or arrays) taken
    from different places are never the same reference. *)
Definition strict_eq (a b : option JsValue) : bool :=
  match a, b with
  | None, None => true
  | Some JNull, Some JNull => true
  | Some (JBool x), Some (JBool y) => x == y
  | Some (JNum x), Some (JNum y) => x == y
  | Some (JStr x), Some (JStr y) => x == y
  | _, _ => false
  end.

(** Truthiness of a stored value, as tested by [if (users[userId])]. *)
Definition truthy (v : option JsValue) : bool :=
  match v with
  | None | Some JNull => false
  | Some (JBool b) => b
  | Some (JNum n) => n != 0%Z
  | Some (JStr s) => s != [::]
  | Some (JArr _) | Some (JObj _) => true
  end.

(** [interface Message] *)
Record Message : Type := mkMessage {
  message_id : Z;
  sender_id : Z;
  receiver_id : Z;
  content : JsString;
  sent_at : JsString
}.

(** [interface User] *)
Record User : Type := mkUser {
  user_id : Z;
  username : JsString;
  email : JsString;
  password_hash : JsString;
  created_at : JsString
}.

(** The object a well-formed message frame parses to. *)
Definition toJs (m : Message) : JsValue :=
  JObj [:: (js "message_id", JNum (message_id m));
           (js "sender_id", JNum (sender_id m));
           (js "receiver_id", JNum (receiver_id m));
           (js "content", JStr (content m));
           (js "sent_at", JStr (sent_at m))].

(** A parsed frame read as a [Message]: an object carrying the five
    fields with the declared types. *)
Definition asMessage (v : JsValue) : option Message :=
  match v with
  | JObj o =>
      match lookup (js "message_id") o, lookup (js "sender_id") o,
            lookup (js "receiver_id") o, lookup (js "content") o,
            lookup (js "sent_at") o with
      | Some (JNum i), Some (JNum s), Some (JNum r), Some (JStr c), Some (JStr t) =>
          Some (mkMessage i s r c t)
      | _, _, _, _, _ => None
      end
  | _ => None
  end.

Definition Message_tuple (m : Message) :=
  (message_id m, sender_id m, receiver_id m, content m, sent_at m).
Definition tuple_Message (t : Z * Z * Z * JsString * JsString) : Message :=
  let: (i, s, r, c, t) := t in mkMessage i s r c t.
Lemma Message_tupleK : cancel Message_tuple tuple_Message.
Proof. by case. Qed.
HB.instance Definition _ := Equality.copy Message (can_type Message_tupleK).

(** The object [messageData] built by [sendMessage]; the frame on the wire
    is its [JSON.stringify]. *)
Record MessageData : Type := mkMessageData {
  md_sender_id : Z;
  md_receiver_id : option JsValue;
  md_content : JsString
}.

(** The object a well-formed directory entry parses to. *)
Definition userJs (u : User) : JsValue :=
  JObj [:: (js "user_id", JNum (user_id u));
           (js "username", JStr (username u));
           (js "email", JStr (email u));
           (js "password_hash", JStr (password_hash u));
           (js "created_at", JStr (created_at u))].

(* ------------------------------------------------------------------ *)
(** ** Platform services *)

(** What the source takes from the JavaScript platform.  A time value is
    the number of milliseconds since the epoch; [None] is [NaN].
    - [WebSocket_accepts url]: [new WebSocket(url)] returns a socket
      rather than raising (a malformed URL, a refused scheme);
    - [JSON_parse data]: [JSON.parse(data)], [None] when it raises;
    - [Date_getTime v]: [new Date(v).getTime()] for a property value [v];
    - [toDateString t]: [toDateString()] of the date with time value [t];
    - [setDate_prev t]: the time value after
      [d.setDate(d.getDate() - 1)] on the date with time value [t];
    - [toLocaleDateString t]:
      [toLocaleDateString("pl-PL", {day: "numeric", month: "short"})]. *)
Class Platform : Type := {
  WebSocket_accepts : JsString -> bool;
  JSON_parse : JsString -> option JsValue;
  Date_getTime : option JsValue -> option Z;
  toDateString : option Z -> JsString;
  setDate_prev : Z -> Z;
  toLocaleDateString : option Z -> JsString
}.

(* ------------------------------------------------------------------ *)
(** ** The message array: duplicate check, sort, projection *)

(** What ECMAScript asks of a sort besides order: among elements that
    compare equal, [s'] keeps the order of [s]. *)
Definition keepsTies (T : eqType) (leT : rel T) (s s' : seq T) : Prop :=
  forall x y, leT x y -> leT y x -> mem2 s x y -> mem2 s' x y.

Section MessageStore.
Context {P : Platform}.

(** [new Date(v.sent_at).getTime()] *)
Definition getTime (v : JsValue) : Result (option Z) :=
  d <~ getProp v (js "sent_at");; Ok (Date_getTime d).

(** The comparator passed to [sort]:
    [(a, b) => new Date(a.sent_at).getTime() - new Date(b.sent_at).getTime()];
    the difference is [NaN] as soon as one side is. *)
Definition compareFn (a b : JsValue) : Result (option Z) :=
  ta <~ getTime a;; tb <~ getTime b;;
  Ok (match ta, tb with
      | Some x, Some y => Some (x - y)%Z
      | _, _ => None
      end).

(** [a] may stay in front of [b]: the comparator's result is not positive
    ([SortCompare] reads [NaN] as [+0]). *)
Definition sortLe (a b : JsValue) : bool :=
  match compareFn a b with
  | Ok (Some v) => (v <=? 0)%Z
  | _ => true
  end.

Definition isNull (v : JsValue) : bool := if v is JNull then true else false.

(** [Array.prototype.sort(compareFn)].  ECMAScript requires the sort to be
    stable; the library's stable merge sort stands for it.  The
    comparator is called on every element as soon as there are two, and
    it raises exactly on [null].  With a [NaN] time the comparator is not
    consistent and ECMAScript leaves the order to the implementation;
    [sort] then gives one admissible outcome. *)
Definition Array_sort (s : seq JsValue) : Result (seq JsValue) :=
  if (1 < size s) && has isNull s then Throw else Ok (sort sortLe s).

(** [prev.some((m) => m.message_id === message.message_id)] *)
Fixpoint some_same_id (prev : seq JsValue) (message : JsValue) : Result bool :=
  match prev with
  | [::] => Ok false
  | m :: rest =>
      a <~ getProp m (js "message_id");;
      b <~ getProp message (js "message_id");;
      if strict_eq a b then Ok true else some_same_id rest message
  end.

(** The updater given to [setMessages] by [ws.onmessage]:
    [[
      if (prev.some((m) => m.message_id === message.message_id)) return prev;
      return [...prev, message].sort(compareFn);
    ]] *)
Definition ingest (prev : seq JsValue) (message : JsValue) : Result (seq JsValue) :=
  dup <~ some_same_id prev message;;
  if dup then Ok prev else Array_sort (rcons prev message).

(** The updater applied to a run of parsed frames, in arrival order. *)
Fixpoint ingestAll (prev : seq JsValue) (frames : seq JsValue) : Result (seq JsValue) :=
  match frames with
  | [::] => Ok prev
  | f :: rest => next <~ ingest prev f;; ingestAll next rest
  end.

(** The predicate of [getMessagesWithUser]:
    [[
      (msg.sender_id === currentUserId && msg.receiver_id === userId) ||
      (msg.sender_id === userId && msg.receiver_id === currentUserId)
    ]] *)
Definition withUser (currentUserId userId : Z) (msg : JsValue) : Result bool :=
  s <~ getProp msg (js "sender_id");;
  r <~ getProp msg (js "receiver_id");;
  Ok ((strict_eq s (Some (JNum currentUserId)) && strict_eq r (Some (JNum userId)))
      || (strict_eq s (Some (JNum userId)) && strict_eq r (Some (JNum currentUserId)))).

(** [messages.filter(callback)] for a callback that may raise. *)
Fixpoint Array_filter (f : JsValue -> Result bool) (s : seq JsValue) : Result (seq JsValue) :=
  match s with
  | [::] => Ok [::]
  | x :: r =>
      keep <~ f x;;
      rest <~ Array_filter f r;;
      Ok (if keep then x :: rest else rest)
  end.

(** [getMessagesWithUser(userId)], for a numeric [userId]. *)
Definition getMessagesWithUser (currentUserId : Z) (messages : seq JsValue) (userId : Z)
  : Result (seq JsValue) :=
  Array_filter (withUser currentUserId userId) messages.

(* ------------------------------------------------------------------ *)
(** ** Day labels and the rendered message column *)

(** [formatDate(dateString)], evaluated when the clock reads [now]. *)
Definition formatDate (now : Z) (dateString : option JsValue) : JsString :=
  let date := Date_getTime dateString in
  let today := Some now in
  let yesterday := Some (setDate_prev now) in
  if toDateString date == toDateString today then js "Dzisiaj"
  else if toDateString date == toDateString yesterday then js "Wczoraj"
  else toLocaleDateString date.

(** The elements pushed by the [reduce] of the message column: a day
    header or a message bubble. *)
Inductive Node : Type :=
| DateHeader (label : JsString)
| Bubble (message : JsValue).

(** One call of the reducer
    [[
      (acc, message, index) => {
        const currentDate = formatDate(message.sent_at);
        const previousDate =
          index > 0 ? formatDate(userMessages[index - 1].sent_at) : null;
        if (currentDate !== previousDate) acc.push(<header currentDate>);
        acc.push(<bubble message>);
        return acc;
      }
    ]] *)
Definition renderStep (now : Z) (userMessages : seq JsValue)
  (acc : Result (seq Node)) (index : nat) : Result (seq Node) :=
  a <~ acc;;
  let message := nth JNull userMessages index in
  d <~ getProp message (js "sent_at");;
  let currentDate := formatDate now d in
  previousDate <~
    (if 0 < index
     then p <~ getProp (nth JNull userMessages index.-1) (js "sent_at");;
          Ok (Some (formatDate now p))
     else Ok None);;
  let a1 := if Some currentDate != previousDate
            then rcons a (DateHeader currentDate) else a in
  Ok (rcons a1 (Bubble message)).

(** [userMessages.reduce(reducer, [])].  (For an empty list the source
    shows a placeholder instead of calling [reduce]; no group is shown
    either way.)  The clock is read once for the whole column. *)
Definition renderMessages (now : Z) (userMessages : seq JsValue) : Result (seq Node) :=
  foldl (renderStep now userMessages) (Ok [::]) (iota 0 (size userMessages)).

(** The groups a rendered column shows: a header opens a group, a bubble
    joins the group that is open (a bubble with no header before it
    would open a group without a label). *)
Definition addNode (gs : seq (JsString * seq JsValue)) (n : Node)
  : seq (JsString * seq JsValue) :=
  match n with
  | DateHeader l => rcons gs (l, [::])
  | Bubble m =>
      if gs is g :: r
      then rcons (belast g r) ((last g r).1, rcons (last g r).2 m)
      else [:: ([::], [:: m])]
  end.

Definition groupsOf (nodes : seq Node) : seq (JsString * seq JsValue) :=
  foldl addNode [::] nodes.

(** The messages shown by a column, in order. *)
Definition bubbles (nodes : seq Node) : seq JsValue :=
  pmap (fun n => if n is Bubble m then Some m else None) nodes.

End MessageStore.

(* ------------------------------------------------------------------ *)
(** ** The chat component and its sockets *)

(** [WebSocket.readyState] *)
Inductive ReadyState : Type := CONNECTING | OPEN | CLOSING | CLOSED.

Definition ReadyState_eqb (a b : ReadyState) : bool :=
  match a, b with
  | CONNECTING, CONNECTING | OPEN, OPEN | CLOSING, CLOSING | CLOSED, CLOSED => true
  | _, _ => false
  end.
Lemma ReadyState_eqP : Equality.axiom ReadyState_eqb.
Proof. by case; case; constructor. Qed.
HB.instance Definition _ := hasDecEq.Build ReadyState ReadyState_eqP.

(** The outcome of [fetch] followed by [response.json()], as [fetchUsers]
    sees it: the request fails, or a response arrives with its [ok] flag
    and a body ([None] when [json()] rejects). *)
Inductive UsersResponse : Type :=
| UsersNetworkError
| UsersHttp (ok : bool) (body : option JsValue).

(** The component's state ([useState], [useRef]) together with what it
    owns outside React: every [WebSocket] it has constructed (a handle is
    the position in [sockets]; each socket comes with the token of the
    render whose [connectWebSocket] built it, which its handlers close
    over), the [setTimeout] callbacks not yet run (each with the token
    of the [connectWebSocket] it will call, in the order they were set),
    and the frames handed to the network.  [selectedUser] is [JNull] for
    [null]. *)
Record ChatState : Type := mkChat {
  messages : seq JsValue;
  users : seq JsValue;
  selectedUser : JsValue;
  newMessage : JsString;
  isConnected : bool;
  wsRef : option nat;
  sockets : seq (ReadyState * JsString);
  timers : seq JsString;
  wire : seq (nat * MessageData)
}.

Definition setMessages st v :=
  mkChat v (users st) (selectedUser st) (newMessage st) (isConnected st)
         (wsRef st) (sockets st) (timers st) (wire st).
Definition setUsers st v :=
  mkChat (messages st) v (selectedUser st) (newMessage st) (isConnected st)
         (wsRef st) (sockets st) (timers st) (wire st).
Definition setSelectedUser st v :=
  mkChat (messages st) (users st) v (newMessage st) (isConnected st)
         (wsRef st) (sockets st) (timers st) (wire st).
Definition setNewMessage st v :=
  mkChat (messages st) (users st) (selectedUser st) v (isConnected st)
         (wsRef st) (sockets st) (timers st) (wire st).
Definition setIsConnected st v :=
  mkChat (messages st) (users st) (selectedUser st) (newMessage st) v
         (wsRef st) (sockets st) (timers st) (wire st).
Definition set_wsRef st v :=
  mkChat (messages st) (users st) (selectedUser st) (newMessage st) (isConnected st)
         v (sockets st) (timers st) (wire st).
Definition set_sockets st v :=
  mkChat (messages st) (users st) (selectedUser st) (newMessage st) (isConnected st)
         (wsRef st) v (timers st) (wire st).
Definition set_timers st v :=
  mkChat (messages st) (users st) (selectedUser st) (newMessage st) (isConnected st)
         (wsRef st) (sockets st) v (wire st).
Definition set_wire st v :=
  mkChat (messages st) (users st) (selectedUser st) (newMessage st) (isConnected st)
         (wsRef st) (sockets st) (timers st) v.

(** The state of the first render: [useState([])], [useState(null)],
    [useState("")], [useState(false)], [useRef(null)]. *)
Definition initial : ChatState :=
  mkChat [::] [::] JNull [::] false None [::] [::] [::].

Definition noSocket : ReadyState * JsString := (CLOSED, [::]).

Definition readyState (st : ChatState) (h : nat) : ReadyState :=
  (nth noSocket (sockets st) h).1.

(** The token the handlers of socket [h] close over. *)
Definition tokenOf (st : ChatState) (h : nat) : JsString :=
  (nth noSocket (sockets st) h).2.

Definition set_readyState (st : ChatState) (h : nat) (r : ReadyState) : ChatState :=
  set_sockets st (set_nth noSocket (sockets st) h (r, tokenOf st h)).

(** A socket that is connecting or open. *)
Definition live (r : ReadyState) : bool := (r == CONNECTING) || (r == OPEN).

Definition WS_BASE : JsString := js "ws://techni-zlecenia-4wdh.shuttle.app/".

Section Chat.
Context {P : Platform}.
Variable currentUserId : Z.

(** [ws.onopen] *)
Definition onopen (st : ChatState) : ChatState := setIsConnected st true.

(** [ws.onclose] of a socket built under [token]:
    [setIsConnected(false)] and
    [setTimeout(() => connectWebSocket(), 3000)]. *)
Definition onclose (token : JsString) (st : ChatState) : ChatState :=
  set_timers (setIsConnected st false) (rcons (timers st) token).

(** [ws.onerror] *)
Definition onerror (st : ChatState) : ChatState := setIsConnected st false.

(** [ws.onmessage].  A frame [JSON.parse] rejects is logged and dropped
    by the [catch].  Otherwise the updater runs on the current array;
    React calls it outside the handler's [try], so [Throw] here is the
    updater's exception reaching the render. *)
Definition onmessage (st : ChatState) (data : JsString) : Result ChatState :=
  match JSON_parse data with
  | None => Ok st
  | Some message =>
      next <~ ingest (messages st) message;; Ok (setMessages st next)
  end.

(** [connectWebSocket]:
    [[
      try {
        const ws = new WebSocket(`${WS_BASE}/messages/listen?token=${token}`);
        ws.onopen = ...; ws.onmessage = ...; ws.onclose = ...; ws.onerror = ...;
        wsRef.current = ws;
      } catch (error) { console.error(...) }
    ]]
    of the render whose token is [token].  The new socket starts
    connecting; when the constructor raises nothing changes. *)
Definition connectWebSocket (token : JsString) (st : ChatState) : ChatState :=
  if WebSocket_accepts (WS_BASE ++ js "/messages/listen?token=" ++ token)
  then set_wsRef (set_sockets st (rcons (sockets st) (CONNECTING, token)))
                 (Some (size (sockets st)))
  else st.

(** [ws.close()]: a connecting or open socket starts closing, a closing
    or closed one is left alone. *)
Definition ws_close (st : ChatState) (h : nat) : ChatState :=
  if live (readyState st h) then set_readyState st h CLOSING else st.

(** The cleanup of the effect: [if (wsRef.current) wsRef.current.close()]. *)
Definition cleanup (st : ChatState) : ChatState :=
  if wsRef st is Some h then ws_close st h else st.

(** [ws.send(data)]: raises [InvalidStateError] while connecting, hands
    the frame to the network when open, and otherwise returns after
    discarding it. *)
Definition ws_send (st : ChatState) (h : nat) (data : MessageData) : Result ChatState :=
  match readyState st h with
  | CONNECTING => Throw
  | OPEN => Ok (set_wire st (rcons (wire st) (h, data)))
  | CLOSING | CLOSED => Ok st
  end.

(** [sendMessage] (the form's submit handler):
    [[
      if (!newMessage.trim() || !selectedUser || !wsRef.current) return;
      const messageData = { sender_id: currentUserId,
                            receiver_id: selectedUser.user_id,
                            content: newMessage.trim() };
      try { wsRef.current.send(JSON.stringify(messageData)); setNewMessage(""); }
      catch (error) { console.error(...) }
    ]] *)
Definition sendMessage (st : ChatState) : Result ChatState :=
  if trim (newMessage st) is [::] then Ok st
  else if ~~ truthy (Some (selectedUser st)) then Ok st
  else if wsRef st is Some h then
    receiver <~ getProp (selectedUser st) (js "user_id");;
    let messageData :=
      mkMessageData currentUserId receiver (trim (newMessage st)) in
    Ok (try_catch (st1 <~ ws_send st h messageData;; Ok (setNewMessage st1 [::])) st)
  else Ok st.

(** The callback of [data.filter]: [(user) => user.user_id !== currentUserId]. *)
Definition notSelf (user : JsValue) : Result bool :=
  u <~ getProp user (js "user_id");;
  Ok (~~ strict_eq u (Some (JNum currentUserId))).

(** [data.filter(callback)]: only an array has a [filter] to call. *)
Definition data_filter (data : JsValue) : Result (seq JsValue) :=
  if data is JArr a then Array_filter notSelf a else Throw.

(** [fetchUsers], from the point where the response is known:
    [[
      if (response.ok) {
        const data = await response.json();
        setUsers(data.filter((user) => user.user_id !== currentUserId));
      }
    ]]
    inside a [try] whose [catch] only logs. *)
Definition fetchUsers (st : ChatState) (r : UsersResponse) : ChatState :=
  match r with
  | UsersHttp true (Some data) =>
      try_catch (kept <~ data_filter data;; Ok (setUsers st kept)) st
  | _ => st
  end.

(** What can happen to a mounted component.  React runs the effect
    after the first render and again, after its cleanup, when [token]
    changes (and once more on mount in strict mode); the cleanup also
    runs on unmount. *)
Inductive Event : Type :=
| EffectRun (token : JsString)      (* the effect body: [connectWebSocket()] *)
| EffectCleanup                     (* the effect's cleanup *)
| WsOpen (h : nat)                  (* socket [h] reports [open] *)
| WsClose (h : nat)                 (* socket [h] reports [close] *)
| WsError (h : nat)                 (* socket [h] reports [error] *)
| WsMessage (h : nat) (data : JsString)
| TimerFires                        (* the oldest pending reconnect timer runs *)
| Typed (s : JsString)              (* the input's [onChange] *)
| Selected (i : nat)                (* a click on entry [i] of the user list *)
| Submit                            (* the form's [onSubmit] *)
| UsersFetched (r : UsersResponse). (* the directory request settles *)

(** One event.  [None]: the event cannot happen in this state (an
    [open] on a socket that is not connecting, a timer when none is
    pending, a click on an entry that is not listed), or an exception
    leaves the handler or the render. *)
Definition step (st : ChatState) (e : Event) : option ChatState :=
  match e with
  | EffectRun token => Some (connectWebSocket token st)
  | EffectCleanup => Some (cleanup st)
  | WsOpen h =>
      if readyState st h == CONNECTING
      then Some (onopen (set_readyState st h OPEN)) else None
  | WsClose h =>
      if (h < size (sockets st)) && (readyState st h != CLOSED)
      then Some (onclose (tokenOf st h) (set_readyState st h CLOSED)) else None
  | WsError h =>
      if (h < size (sockets st)) && (readyState st h != CLOSED)
      then Some (onerror st) else None
  | WsMessage h data =>
      if (readyState st h == OPEN) || (readyState st h == CLOSING)
      then (if onmessage st data is Ok st' then Some st' else None) else None
  | TimerFires =>
      if timers st is token :: rest
      then Some (connectWebSocket token (set_timers st rest)) else None
  | Typed s => Some (setNewMessage st s)
  | Selected i =>
      if i < size (users st)
      then Some (setSelectedUser st (nth JNull (users st) i)) else None
  | Submit => if sendMessage st is Ok st' then Some st' else None
  | UsersFetched r => Some (fetchUsers st r)
  end.

Fixpoint run (st : ChatState) (es : seq Event) : option ChatState :=
  match es with
  | [::] => Some st
  | e :: r => if step st e is Some st' then run st' r else None
  end.

End Chat.

(** Events by which the owner starts or ends the effect. *)
Definition ownerEvent (e : Event) : bool :=
  match e with
  | EffectRun _ | EffectCleanup => true
  | _ => false
  end.

Definition notClosed (s : ReadyState * JsString) : bool := s.1 != CLOSED.

(** The number of sockets that have not closed. *)
Definition nonClosed (st : ChatState) : nat := count notClosed (sockets st).


(** The [receiver_id] of the frame [sendMessage] builds. *)
Definition receiverOf (st : ChatState) : option JsValue :=
  if getProp (selectedUser st) (js "user_id") is Ok r then r else None.

(** The state after a frame went out: the frame is on the wire and the
    draft is cleared. *)
Definition sent (cur : Z) (st : ChatState) (h : nat) : ChatState :=
  setNewMessage
    (set_wire st (rcons (wire st)
                    (h, mkMessageData cur (receiverOf st) (trim (newMessage st)))))
    [::].

(* ------------------------------------------------------------------ *)
(** ** Profile look-ups of the offers and profile views *)

(** The object [{ [key: number]: User }] held in [useState], as the list
    of its properties. *)
Definition ProfileMap := seq (Z * JsValue).

(** [users[userId]] *)
Fixpoint obj_get (o : ProfileMap) (k : Z) : option JsValue :=
  match o with
  | [::] => None
  | (k', v) :: r => if k' == k then Some v else obj_get r k
  end.

(** [{ ...prev, [userId]: user }] *)
Definition obj_set (o : ProfileMap) (k : Z) (v : JsValue) : ProfileMap :=
  (k, v) :: [seq kv <- o | kv.1 != k].

(** The outcome of [fetch] and [response.json()] for one profile; the
    body is [None] when [json()] rejects. *)
Inductive ProfileResponse : Type :=
| ProfileNetworkError
| ProfileHttp (ok : bool) (body : option JsValue).

(** The view's map together with the profile requests on the network
    that have not settled, by user id. *)
Record Directory : Type := mkDirectory {
  dir_users : ProfileMap;
  dir_pending : seq Z
}.

(** [fetchUserDetails(userId)] up to its [await fetch(...)]:
    [[
      if (users[userId]) return; // Already fetched
      const response = await fetch(`${API_BASE}/user/${userId}`, ...);
    ]]
    [seen] is the [users] object the closure reads, the state of the
    render that created the function. *)
Definition fetchUserDetails (seen : ProfileMap) (userId : Z) (d : Directory) : Directory :=
  if truthy (obj_get seen userId) then d
  else mkDirectory (dir_users d) (rcons (dir_pending d) userId).

(** [fetchUserDetails(userId)] from the point where its request settles:
    [[
      if (response.ok) {
        const user = await response.json();
        setUsers((prev) => ({ ...prev, [userId]: user }));
      }
    ]]
    inside a [try] whose [catch] only logs. *)
Definition fetchUserDetails_settled (userId : Z) (r : ProfileResponse) (d : Directory)
  : Directory :=
  let pending := rem userId (dir_pending d) in
  match r with
  | ProfileHttp true (Some user) => mkDirectory (obj_set (dir_users d) userId user) pending
  | _ => mkDirectory (dir_users d) pending
  end.

(** [fetchReviewer] of the profile view is the same function over the
    [reviewers] map. *)
Definition fetchReviewer := fetchUserDetails.
Definition fetchReviewer_settled := fetchUserDetails_settled.

(* ------------------------------------------------------------------ *)
(** ** The array seen through [interface Message] *)

Section TypedStore.
Context {P : Platform}.

(** The time value of a message's [sent_at]; [None] when the string does
    not parse as a date. *)
Definition time (m : Message) : option Z := Date_getTime (Some (JStr (sent_at m))).

Definition valid (m : Message) : bool := time m != None.

(** The time value of a message whose [sent_at] parses. *)
Definition tval (m : Message) : Z := odflt 0%Z (time m).

(** The order the comparator induces on well-formed messages. *)
Definition leM (a b : Message) : bool := sortLe (toJs a) (toJs b).

Definition sameId (m x : Message) : bool := message_id x == message_id m.

(** The updater on the typed view. *)
Definition ingestM (prev : seq Message) (m : Message) : seq Message :=
  if has (sameId m) prev then prev else sort leM (rcons prev m).

(** The messages of a run in the order in which they were let in: a
    message whose id is already present is skipped. *)
Definition acceptM (acc : seq Message) (m : Message) : seq Message :=
  if has (sameId m) acc then acc else rcons acc m.

Definition accepted (ms : seq Message) : seq Message := foldl acceptM [::] ms.

(** The two participants of [getMessagesWithUser], typed. *)
Definition between (currentUserId userId : Z) (m : Message) : bool :=
  ((sender_id m == currentUserId) && (receiver_id m == userId))
  || ((sender_id m == userId) && (receiver_id m == currentUserId)).

(** [x] comes strictly before [y] in [s]. *)
Definition precedes (s : seq Message) (x y : Message) : bool :=
  [&& x \in s, y \in s & index x s < index y s].

(** The day label of a message. *)
Definition label (now : Z) (m : Message) : JsString :=
  formatDate now (Some (JStr (sent_at m))).

(** The column for a typed projection, by recursion on the list: a
    header whenever the label differs from the previous message's. *)
Fixpoint column (now : Z) (prev : option JsString) (ms : seq Message) : seq Node :=
  match ms with
  | [::] => [::]
  | m :: r =>
      (if Some (label now m) != prev then [:: DateHeader (label now m)] else [::])
        ++ Bubble (toJs m) :: column now (Some (label now m)) r
  end.

Definition lastLabel (now : Z) (s : seq Message) : option JsString :=
  if s is m :: r then Some (label now (last m r)) else None.

End TypedStore.

(* ------------------------------------------------------------------ *)
(** ** A platform to run the examples on *)

(** A UTC clock with the proleptic Gregorian calendar.  [civil z] is the
    year, month (1 to 12) and day of month of day [z] after 1970-01-01. *)
Definition civil (z : Z) : Z * Z * Z :=
  (let z := z + 719468 in
   let era := z / 146097 in
   let doe := z - era * 146097 in
   let yoe := (doe - doe / 1460 + doe / 36524 - doe / 146096) / 365 in
   let doy := doe - (365 * yoe + yoe / 4 - yoe / 100) in
   let mp := (5 * doy + 2) / 153 in
   let d := doy - (153 * mp + 2) / 5 + 1 in
   let m := if mp <? 10 then mp + 3 else mp - 9 in
   let y := yoe + era * 400 + (if m <=? 2 then 1 else 0) in
   (y, m, d))%Z.

Definition msPerDay : Z := 86400000.

(** Decimal digits of a number below 10000, in at least [width] places. *)
Definition digit (n : Z) : N := (48 + Z.to_N (n mod 10))%num.
Definition decimal (width : nat) (n : Z) : JsString :=
  let ds := [:: digit (n / 1000); digit (n / 100); digit (n / 10); digit n] in
  let lead := find (fun c => c != 48%num) ds in
  drop (minn lead (4 - width)) ds.

Definition weekdayName (z : Z) : JsString :=
  nth [::] [:: js "Thu"; js "Fri"; js "Sat"; js "Sun"; js "Mon"; js "Tue"; js "Wed"]
      (Z.to_nat (z mod 7)).
Definition monthName (m : Z) : JsString :=
  nth [::] [:: js "Jan"; js "Feb"; js "Mar"; js "Apr"; js "May"; js "Jun";
               js "Jul"; js "Aug"; js "Sep"; js "Oct"; js "Nov"; js "Dec"]
      (Z.to_nat (m - 1)).
Definition monthName_pl (m : Z) : JsString :=
  nth [::] [:: js "sty"; js "lut"; js "mar"; js "kwi"; js "maj"; js "cze";
               js "lip"; js "sie"; js "wrz"; js "pa" ++ [:: 378%num];
               js "lis"; js "gru"]
      (Z.to_nat (m - 1)).

Definition utc_toDateString (t : option Z) : JsString :=
  match t with
  | None => js "Invalid Date"
  | Some t =>
      let z := (t / msPerDay)%Z in
      let: (y, m, d) := civil z in
      weekdayName z ++ js " " ++ monthName m ++ js " " ++ decimal 2 d
        ++ js " " ++ decimal 4 y
  end.

Definition utc_toLocaleDateString (t : option Z) : JsString :=
  match t with
  | None => js "Invalid Date"
  | Some t =>
      let: (y, m, d) := civil (t / msPerDay)%Z in
      decimal 1 d ++ js " " ++ monthName_pl m
  end.

(** [Date.parse] on the strings the examples use and the conversions of
    [new Date(v)] for numbers, booleans, [null] and [undefined]; every
    other value is given [NaN].  [JSON.parse] on the frames the examples
    use; every other frame is rejected. *)
Definition utc_Date_getTime (v : option JsValue) : option Z :=
  match v with
  | Some (JStr s) =>
      if s == js "2024-05-02T10:00:00Z" then Some 1714644000000%Z
      else if s == js "2024-05-02T10:05:00Z" then Some 1714644300000%Z
      else if s == js "2024-05-01T23:50:00Z" then Some 1714607400000%Z
      else None
  | Some (JNum n) => if (Z.abs n <=? 8640000000000000)%Z then Some n else None
  | Some JNull => Some 0%Z
  | Some (JBool b) => Some (if b then 1 else 0)%Z
  | _ => None
  end.

Definition example_JSON_parse (data : JsString) : option JsValue :=
  if data == js "{}" then Some (JObj [::])
  else if data == js "null" then Some JNull
  else None.

Definition utc : Platform :=
  {| WebSocket_accepts := fun _ => true;
     JSON_parse := example_JSON_parse;
     Date_getTime := utc_Date_getTime;
     toDateString := utc_toDateString;
     setDate_prev := fun t => (t - msPerDay)%Z;
     toLocaleDateString := utc_toLocaleDateString |}.

(* ------------------------------------------------------------------ *)
(** ** Example data: messages between users 7 and 42 *)

Definition ex_now : Z := 1714651200000.  (* 2024-05-02T12:00:00Z *)
Definition ex_today_1000 : Message :=
  mkMessage 1 7 42 (js "first") (js "2024-05-02T10:00:00Z").
Definition ex_today_1005 : Message :=
  mkMessage 2 42 7 (js "second") (js "2024-05-02T10:05:00Z").
Definition ex_yesterday_2350 : Message :=
  mkMessage 3 7 42 (js "earlier") (js "2024-05-01T23:50:00Z").
Definition ex_today_1000_bis : Message :=
  mkMessage 4 42 7 (js "same minute") (js "2024-05-02T10:00:00Z").
Definition ex_replay : Message :=
  mkMessage 1 7 42 (js "first, again") (js "2024-05-02T10:05:00Z").
(** A message of another conversation whose [sent_at] is no date. *)
Definition ex_unparsable : Message :=
  mkMessage 9 5 6 (js "elsewhere") (js "soon").
Definition ex_token : JsString := js "header.payload.signature".
Definition ex_token' : JsString := js "header.payload.signature2".

Definition ex_user42 : User :=
  mkUser 42 (js "ola") (js "ola@example.org") [::] (js "2024-01-01T00:00:00Z").
Definition ex_user7 : User :=
  mkUser 7 (js "jan") (js "jan@example.org") [::] (js "2024-01-01T00:00:00Z").

(** The directory answers with the current user and user 42. *)
Definition ex_directory : Event :=
  UsersFetched (UsersHttp true (Some (JArr [:: userJs ex_user7; userJs ex_user42]))).

(* ------------------------------------------------------------------ *)
(** ** What the chat view shows *)

(** [disabled={!newMessage.trim() || !isConnected}] of the send button. *)
Definition submitDisabled (st : ChatState) : bool :=
  (trim (newMessage st) == [::]) || ~~ isConnected st.

(** The message form is rendered in the branch [selectedUser ? ... : ...]. *)
Definition formShown (st : ChatState) : bool := truthy (Some (selectedUser st)).

(** A socket also changes without a handler running: when the peer
    starts the closing handshake the browser sets [readyState] to
    [CLOSING], and the [close] event follows later.  An occurrence is
    an event of the component or this silent change. *)
Inductive Occurrence : Type :=
| Handled (e : Event)
| ClosingStarts (h : nat).

Definition occur {P : Platform} (currentUserId : Z) (st : ChatState) (o : Occurrence)
  : option ChatState :=
  match o with
  | Handled e => step currentUserId st e
  | ClosingStarts h =>
      if readyState st h == OPEN then Some (set_readyState st h CLOSING) else None
  end.

Fixpoint occurAll {P : Platform} (currentUserId : Z) (st : ChatState) (os : seq Occurrence)
  : option ChatState :=
  match os with
  | [::] => Some st
  | o :: r => if occur currentUserId st o is Some st' then occurAll currentUserId st' r else None
  end.

Definition ownerOccurrence (o : Occurrence) : bool :=
  if o is Handled e then ownerEvent e else false.

(** Between the owner's events: sockets and pending reconnects number at
    most one, a socket that has not closed is the one in [wsRef], and
    the indicator is on only while that socket is open or closing. *)
Definition linked (st : ChatState) : Prop :=
  [/\ nonClosed st + size (timers st) <= 1,
      forall h, h < size (sockets st) -> readyState st h != CLOSED -> wsRef st = Some h
    & isConnected st ->
      exists2 h, wsRef st = Some h
               & (readyState st h == OPEN) || (readyState st h == CLOSING)].

(** [userMsgs[userMsgs.length - 1]]; [undefined] for an empty array. *)
Definition lastMessage (userMsgs : seq JsValue) : option JsValue :=
  if userMsgs is m :: r then Some (last m r) else None.

(** The line under a name in the user list:
    [[
      lastMessage && (<p>{lastMessage.sender_id === currentUserId ? "Ty: " : ""}
                         {lastMessage.content}</p>)
    ]]
    as the prefix and the content shown; [None] when no line is shown. *)
Definition preview (currentUserId : Z) (userMsgs : seq JsValue)
  : Result (option (JsString * option JsValue)) :=
  match lastMessage userMsgs with
  | Some m =>
      if truthy (Some m) then
        s <~ getProp m (js "sender_id");;
        c <~ getProp m (js "content");;
        Ok (Some (if strict_eq s (Some (JNum currentUserId)) then js "Ty: " else [::], c))
      else Ok None
  | None => Ok None
  end.

(** The side of a bubble:
    [message.sender_id === currentUserId ? "justify-end" : "justify-start"]. *)
Definition bubbleSide (currentUserId : Z) (message : JsValue) : Result JsString :=
  s <~ getProp message (js "sender_id");;
  Ok (if strict_eq s (Some (JNum currentUserId))
      then js "justify-end" else js "justify-start").

(** A value that is no object and no array, or no value at all
    ([undefined]).  [new Date(v)], [key={v}] and [{v}] as a child of an
    element take such a value without calling into it; of an object
    [new Date] calls [toString] and [valueOf], and React accepts none as
    a child. *)
Definition primitive (v : option JsValue) : bool :=
  match v with
  | Some (JArr _) | Some (JObj _) => false
  | _ => true
  end.

(** A frame whose [message_id], [content] and [sent_at] are primitive or
    missing.  The frame itself is anything but [null]: of a number, a
    string or an array the three reads give [undefined]. *)
Definition plainFrame (v : JsValue) : bool :=
  match v with
  | JNull => false
  | JObj o =>
      [&& primitive (lookup (js "message_id") o),
          primitive (lookup (js "content") o)
        & primitive (lookup (js "sent_at") o)]
  | _ => true
  end.

(* ------------------------------------------------------------------ *)
(** ** The profile view: stars and the review form *)

(** One [<svg>] of [renderStars]: its [key] and its [className]. *)
Record Star : Type := mkStar {
  star_key : Z;
  star_className : JsString
}.

(** [renderStars(rating, size)]:
    [[
      const sizeClass = size === "lg" ? "w-6 h-6" : "w-4 h-4";
      for (let i = 1; i <= 5; i++)
        stars.push(<svg key={i} className={`${sizeClass} ${
          i <= rating ? "text-yellow-400" : "text-gray-300"}`} />);
    ]]
    for a whole-number [rating] (what [Math.round] gives and what the
    review form posts). *)
Definition sizeClass (size : JsString) : JsString :=
  if size == js "lg" then js "w-6 h-6" else js "w-4 h-4".

Definition star (rating : Z) (size : JsString) (i : Z) : Star :=
  mkStar i (sizeClass size ++ js " "
            ++ (if (i <=? rating)%Z then js "text-yellow-400" else js "text-gray-300")).

Definition renderStars (rating : Z) (size : JsString) : seq Star :=
  [seq star rating size i | i <- [:: 1; 2; 3; 4; 5]%Z].

(** [activeTab] *)
Inductive Tab : Type := TabInfo | TabReviews | TabOrders.

(** [newReview]: [{ rating, content }] *)
Record ReviewDraft : Type := mkReviewDraft {
  nr_rating : Z;
  nr_content : JsString
}.

(** The body [submitReview] posts to [/review]:
    [{ user_id: userId, rating: newReview.rating, content: newReview.content.trim() }] *)
Record ReviewBody : Type := mkReviewBody {
  rb_user_id : Z;
  rb_rating : Z;
  rb_content : JsString
}.

(** The outcome of a [fetch] whose body is not read: the request fails,
    or a response arrives with its [ok] flag. *)
Inductive PostResponse : Type :=
| PostNetworkError
| PostHttp (ok : bool).

(** The props [userId] and [currentUserId] of the latest render, the state
    of the profile view that the review form touches, the bodies posted so
    far and the number of posts that have not settled. *)
Record ProfileView : Type := mkProfileView {
  userId : Z;
  currentUserId : Z;
  activeTab : Tab;
  showReviewForm : bool;
  newReview : ReviewDraft;
  posts : seq ReviewBody;
  postsPending : nat
}.

(** The view as it is mounted with the props of its first render:
    [useState("info")], [useState(false)], [useState({ rating: 5, content: "" })] *)
Definition profileInitial (userId currentUserId : Z) : ProfileView :=
  mkProfileView userId currentUserId TabInfo false (mkReviewDraft 5 [::]) [::] 0.

(** [submitReview] up to its [await fetch(...)]:
    [[
      if (!newReview.content.trim()) return;
      ... fetch(`${API_BASE}/review`, { method: "POST", body: JSON.stringify({...}) })
    ]]
    The handler is the one of the latest render, so [userId] is the prop
    of that render. *)
Definition submitReview (v : ProfileView) : ProfileView :=
  if trim (nr_content (newReview v)) is [::] then v
  else mkProfileView (userId v) (currentUserId v)
         (activeTab v) (showReviewForm v) (newReview v)
         (rcons (posts v)
            (mkReviewBody (userId v) (nr_rating (newReview v))
                          (trim (nr_content (newReview v)))))
         (postsPending v).+1.

(** [submitReview] from the point where the request settles:
    [[
      if (response.ok) {
        setNewReview({ rating: 5, content: "" });
        setShowReviewForm(false);
        await fetchReviews();
        alert(...);
      } else alert(...);
    ]]
    (the [catch] alerts the same error as the [else]). *)
Definition submitReview_settled (r : PostResponse) (v : ProfileView) : ProfileView :=
  match r with
  | PostHttp true =>
      mkProfileView (userId v) (currentUserId v)
                    (activeTab v) false (mkReviewDraft 5 [::]) (posts v) (postsPending v).-1
  | _ =>
      mkProfileView (userId v) (currentUserId v)
                    (activeTab v) (showReviewForm v) (newReview v) (posts v)
                    (postsPending v).-1
  end.

(** What the user, the network and the dashboard can do to the view.  A
    control can be used only while it is rendered: the button that opens
    the form under [activeTab === "info" && currentUserId !== userId], the
    form and its controls under [showReviewForm]; the five star buttons
    come from [[1, 2, 3, 4, 5].map].  The dashboard renders
    [<Profile userId={showProfile} currentUserId={user.user_id} .../>] at
    one place of its tree, so a change of [showProfile] or of the user
    gives the mounted view other props and leaves its state as it is; the
    effect on [[userId]] fetches and sets none of the state kept here.
    While [isLoading] the controls are not rendered; the events below are
    allowed then as well, which adds runs and removes none. *)
Inductive ProfileEvent : Type :=
| Rerender (userId currentUserId : Z) (* a render with these props *)
| SetActiveTab (t : Tab)
| OpenReviewForm                      (* [setShowReviewForm(true)] *)
| ClickStar (i : nat)                 (* the [i]-th star button *)
| TypeReview (s : JsString)           (* the textarea's [onChange] *)
| CancelReview                        (* [setShowReviewForm(false)] *)
| SubmitReview                        (* the form's [onSubmit] *)
| ReviewSettled (r : PostResponse).   (* a pending post settles *)

Definition profileStep (v : ProfileView) (e : ProfileEvent) : option ProfileView :=
  match e with
  | Rerender u c =>
      Some (mkProfileView u c (activeTab v) (showReviewForm v) (newReview v)
                          (posts v) (postsPending v))
  | SetActiveTab t =>
      Some (mkProfileView (userId v) (currentUserId v)
                          t (showReviewForm v) (newReview v) (posts v) (postsPending v))
  | OpenReviewForm =>
      if (if activeTab v is TabInfo then true else false) && (currentUserId v != userId v)
      then Some (mkProfileView (userId v) (currentUserId v)
                   (activeTab v) true (newReview v) (posts v) (postsPending v))
      else None
  | ClickStar i =>
      if showReviewForm v && (i < 5)
      then Some (mkProfileView (userId v) (currentUserId v)
                   (activeTab v) (showReviewForm v)
                   (mkReviewDraft (nth 0%Z [:: 1; 2; 3; 4; 5]%Z i) (nr_content (newReview v)))
                   (posts v) (postsPending v))
      else None
  | TypeReview s =>
      if showReviewForm v
      then Some (mkProfileView (userId v) (currentUserId v)
                   (activeTab v) (showReviewForm v)
                   (mkReviewDraft (nr_rating (newReview v)) s) (posts v) (postsPending v))
      else None
  | CancelReview =>
      if showReviewForm v
      then Some (mkProfileView (userId v) (currentUserId v)
                   (activeTab v) false (newReview v) (posts v) (postsPending v))
      else None
  | SubmitReview => if showReviewForm v then Some (submitReview v) else None
  | ReviewSettled r =>
      if 0 < postsPending v then Some (submitReview_settled r v) else None
  end.

Fixpoint profileRun (v : ProfileView) (es : seq ProfileEvent) : option ProfileView :=
  match es with
  | [::] => Some v
  | e :: r => if profileStep v e is Some v' then profileRun v' r else None
  end.

(** A posted review as the server should find it: a rating from 1 to 5
    and a text that is not empty and has no white space at its ends. *)
Definition wellFormedReview (b : ReviewBody) : bool :=
  [&& (1 <=? rb_rating b)%Z, (rb_rating b <=? 5)%Z, rb_content b != [::]
    & ~~ edgeSpace (rb_content b)].

(** The profile a render is for, if the event is one. *)
Definition renderedFor (e : ProfileEvent) : option Z :=
  if e is Rerender u _ then Some u else None.

(** The profiles a view has been rendered for: that of its first render
    and those of the later ones. *)
Definition shown (userId : Z) (es : seq ProfileEvent) : seq Z :=
  userId :: pmap renderedFor es.

(** The event is no render with other props than these. *)
Definition sameProps (userId currentUserId : Z) (e : ProfileEvent) : bool :=
  if e is Rerender u c then (u == userId) && (c == currentUserId) else true.

(* ------------------------------------------------------------------ *)
(** ** The offers view: status changes and deletion *)

(** [array.map(callback)] for a callback that may raise. *)
Fixpoint Array_map (f : JsValue -> Result JsValue) (s : seq JsValue) : Result (seq JsValue) :=
  match s with
  | [::] => Ok [::]
  | x :: r => y <~ f x;; rest <~ Array_map f r;; Ok (y :: rest)
  end.

(** The properties of [{ ...o, [k]: v }]: those of [o], with [k] set. *)
Fixpoint obj_put (o : seq (JsString * JsValue)) (k : JsString) (v : JsValue)
  : seq (JsString * JsValue) :=
  match o with
  | [::] => [:: (k, v)]
  | (k', v') :: r => if k' == k then (k, v) :: r else (k', v') :: obj_put r k v
  end.

(** The callback of [prev.map] in [updateOfferStatus]:
    [(offer) => offer.offer_id === offerId ? { ...offer, status } : offer]
    for a numeric [offerId] (only an object has an [offer_id] that can
    compare equal to it). *)
Definition setStatus (offerId : Z) (status : JsString) (offer : JsValue) : Result JsValue :=
  i <~ getProp offer (js "offer_id");;
  Ok (if strict_eq i (Some (JNum offerId))
      then (if offer is JObj o then JObj (obj_put o (js "status") (JStr status)) else offer)
      else offer).

(** [updateOfferStatus(offerId, status)] from the point where its POST
    settles:
    [[
      if (response.ok) {
        setReceivedOffers((prev) => prev.map(callback));
        alert(...);
      } else alert(...);
    ]]
    as the new value of [receivedOffers]; [Throw] is the updater's
    exception. *)
Definition updateOfferStatus (offerId : Z) (status : JsString) (r : PostResponse)
  (receivedOffers : seq JsValue) : Result (seq JsValue) :=
  match r with
  | PostHttp true => Array_map (setStatus offerId status) receivedOffers
  | _ => Ok receivedOffers
  end.

(** The callback of [prev.filter] in [deleteOffer]:
    [(offer) => offer.offer_id !== offerId]. *)
Definition otherOffer (offerId : Z) (offer : JsValue) : Result bool :=
  i <~ getProp offer (js "offer_id");;
  Ok (~~ strict_eq i (Some (JNum offerId))).

(** [deleteOffer(offerId)] from the point where its DELETE request
    (made once the user has confirmed) settles:
    [[
      if (response.ok) {
        setMyOffers((prev) => prev.filter(callback));
        alert(...);
      } else alert(...);
    ]]
    as the new value of [myOffers]. *)
Definition deleteOffer (offerId : Z) (r : PostResponse) (myOffers : seq JsValue)
  : Result (seq JsValue) :=
  match r with
  | PostHttp true => Array_filter (otherOffer offerId) myOffers
  | _ => Ok myOffers
  end.

(** An offer whose [offer_id] is [=== offerId]. *)
Definition hasOfferId (offerId : Z) (offer : JsValue) : bool :=
  if getProp offer (js "offer_id") is Ok i
  then strict_eq i (Some (JNum offerId)) else false.

(** [offer.status === "pending"], under which the delete button and the
    accept and reject buttons of an offer are rendered. *)
Definition isPending (offer : JsValue) : bool :=
  if getProp offer (js "status") is Ok s
  then strict_eq s (Some (JStr (js "pending"))) else false.

(** The names [Object.prototype] defines (ECMAScript 20.1.3 and B.2.2);
    [statusConfig[name]] finds them although [statusConfig] has no such
    property of its own. *)
Definition Object_prototype_names : seq JsString :=
  [:: js "constructor"; js "hasOwnProperty"; js "isPrototypeOf";
      js "propertyIsEnumerable"; js "toLocaleString"; js "toString";
      js "valueOf"; js "__proto__"; js "__defineGetter__";
      js "__defineSetter__"; js "__lookupGetter__"; js "__lookupSetter__"].

(** [getStatusBadge(status)] for a string [status]:
    [[
      const statusConfig = {
        pending: { label: "Oczekuje", className: "status-pending" },
        accepted: { label: "Zaakceptowana", className: "status-accepted" },
        rejected: { label: "Odrzucona", className: "status-rejected" } };
      const config = statusConfig[status] || { label: status, className: "status-pending" };
      return <span className={`status-badge ${config.className}`}>{config.label}</span>;
    ]]
    as the class and the text of the [<span>].  An inherited name gives
    a truthy value without [label] or [className]: the class reads
    [undefined] and no text is rendered. *)
Definition getStatusBadge (status : JsString) : JsString * option JsString :=
  if status == js "pending" then (js "status-badge status-pending", Some (js "Oczekuje"))
  else if status == js "accepted"
       then (js "status-badge status-accepted", Some (js "Zaakceptowana"))
  else if status == js "rejected"
       then (js "status-badge status-rejected", Some (js "Odrzucona"))
  else if status \in Object_prototype_names then (js "status-badge undefined", None)
  else (js "status-badge status-pending", Some status).

(* ------------------------------------------------------------------ *)
(** ** Strings: [split] and [atob] *)

(** [s.split(sep)] for a separator of one code unit. *)
Fixpoint split (sep : N) (s : JsString) : seq JsString :=
  match s with
  | [::] => [:: [::]]
  | c :: r =>
      if c == sep then [::] :: split sep r
      else if split sep r is seg :: rest then (c :: seg) :: rest else [:: [:: c]]
  end.

(** [a[i]] on an array of strings; [None] is [undefined]. *)
Definition at_index (a : seq JsString) (i : nat) : option JsString :=
  nth None (map Some a) i.

(** ASCII white space, as the forgiving base64 decoder strips it. *)
Definition isAsciiWhitespace (c : N) : bool :=
  [|| c == 9%num, c == 10%num, c == 12%num, c == 13%num | c == 32%num].

(** The value of a character of the base64 alphabet
    ([A-Z], [a-z], [0-9], [+], [/]). *)
Definition base64_value (c : N) : option N :=
  if N.leb 65 c && N.leb c 90 then Some (c - 65)%num
  else if N.leb 97 c && N.leb c 122 then Some (c - 71)%num
  else if N.leb 48 c && N.leb c 57 then Some (c + 4)%num
  else if c == 43%num then Some 62%num
  else if c == 47%num then Some 63%num
  else None.

(** When the length is a multiple of four, one or two [=] at the end
    are removed; [dropEq] removes one from the front of the reversed
    string. *)
Definition dropEq (r : JsString) : JsString :=
  if r is c :: r' then (if c == 61%num then r' else r) else r.

Definition stripPadding (d : JsString) : JsString :=
  if Nat.modulo (size d) 4 == 0 then rev (dropEq (dropEq (rev d))) else d.

(** Groups of four 6-bit values give three bytes; a rest of three gives
    two bytes and a rest of two gives one, the surplus bits dropped. *)
Fixpoint base64_bytes (v : seq N) : seq N :=
  match v with
  | a :: b :: c :: d :: r =>
      let n := (((a * 64 + b) * 64 + c) * 64 + d)%num in
      [:: (n / 65536)%num, ((n / 256) mod 256)%num, (n mod 256)%num & base64_bytes r]
  | [:: a; b; c] =>
      let n := ((a * 64 + b) * 64 + c)%num in
      [:: (n / 1024)%num; ((n / 4) mod 256)%num]
  | [:: a; b] => [:: ((a * 64 + b) / 16)%num]
  | _ => [::]
  end.

(** [atob(data)] (HTML, forgiving-base64 decode); [undefined] is first
    converted to the string "undefined".  [Throw] is the
    [InvalidCharacterError]. *)
Definition atob (data : option JsString) : Result JsString :=
  let s := if data is Some s then s else js "undefined" in
  let d := stripPadding [seq c <- s | ~~ isAsciiWhitespace c] in
  if Nat.modulo (size d) 4 == 1 then Throw
  else if all (fun c => base64_value c != None) d
       then Ok (base64_bytes (pmap base64_value d))
       else Throw.

(* ------------------------------------------------------------------ *)
(** ** The session: [AuthProvider] *)

(** The value of [payload.sub]: an own property of an object (or
    [undefined]), and for a string the method [String.prototype.sub]. *)
Inductive Sub : Type :=
| SubValue (v : option JsValue)
| SubMethod.

(** [payload.sub] *)
Definition payload_sub (payload : JsValue) : Result Sub :=
  match payload with
  | JNull => Throw
  | JObj o => Ok (SubValue (lookup (js "sub") o))
  | JStr _ => Ok SubMethod
  | _ => Ok (SubValue None)
  end.

(** The provider's state, the [token] entry of [localStorage], and the
    user ids [fetchUser] has been called with. *)
Record AuthState : Type := mkAuth {
  auth_user : JsValue;
  auth_token : option JsString;
  auth_isLoading : bool;
  localStorage_token : option JsString;
  auth_fetches : seq Sub
}.

(** The first render: [useState(null)],
    [useState(localStorage.getItem("token"))], [useState(true)]. *)
Definition authInitial (stored : option JsString) : AuthState :=
  mkAuth JNull stored true stored [::].

(** The outcome of the login request: the request fails, or a response
    arrives with its [ok] flag and its text ([None] when [text()]
    rejects). *)
Inductive LoginResponse : Type :=
| LoginNetworkError
| LoginHttp (ok : bool) (text : option JsString).

Section Auth.
Context {P : Platform}.

(** [JSON.parse(atob(token.split(".")[1]))] followed by [payload.sub]. *)
Definition decodeToken (token : JsString) : Result Sub :=
  bin <~ atob (at_index (split 46 token) 1);;
  payload <~ (if JSON_parse bin is Some v then Ok v else Throw);;
  payload_sub payload.

(** The effect of [AuthProvider]:
    [[
      if (token) {
        try {
          const payload = JSON.parse(atob(token.split(".")[1]));
          fetchUser(payload.sub);
        } catch (error) {
          localStorage.removeItem("token");
          setToken(null);
        }
      }
      setIsLoading(false);
    ]] *)
Definition authEffect (a : AuthState) : AuthState :=
  match auth_token a with
  | Some (c :: r) =>
      match decodeToken (c :: r) with
      | Ok sub =>
          mkAuth (auth_user a) (auth_token a) false (localStorage_token a)
                 (rcons (auth_fetches a) sub)
      | Throw => mkAuth (auth_user a) None false None (auth_fetches a)
      end
  | _ => mkAuth (auth_user a) (auth_token a) false (localStorage_token a) (auth_fetches a)
  end.

(** [fetchUser] from the point where its request settles:
    [if (response.ok) { const userData = await response.json(); setUser(userData); }]
    inside a [try] whose [catch] only logs. *)
Definition fetchUser_settled (r : ProfileResponse) (a : AuthState) : AuthState :=
  match r with
  | ProfileHttp true (Some userData) =>
      mkAuth userData (auth_token a) (auth_isLoading a) (localStorage_token a)
             (auth_fetches a)
  | _ => a
  end.

(** [login] from the point where its request settles, with the boolean
    it resolves to:
    [[
      if (response.ok) {
        const newToken = await response.text();
        localStorage.setItem("token", newToken);
        setToken(newToken);
        return true;
      }
      return false;
    ]]
    inside a [try] whose [catch] returns [false]. *)
Definition login_settled (r : LoginResponse) (a : AuthState) : AuthState * bool :=
  match r with
  | LoginHttp true (Some newToken) =>
      (mkAuth (auth_user a) (Some newToken) (auth_isLoading a) (Some newToken)
              (auth_fetches a), true)
  | _ => (a, false)
  end.

(** [logout]:
    [localStorage.removeItem("token"); setToken(null); setUser(null);] *)
Definition logout (a : AuthState) : AuthState :=
  mkAuth JNull None (auth_isLoading a) None (auth_fetches a).

(** What can happen to the provider: its effect runs (after the first
    render and whenever [token] has changed), a [fetchUser] or a [login]
    request settles, the user logs out. *)
Inductive AuthEvent : Type :=
| AuthEffect
| UserSettled (r : ProfileResponse)
| LoginSettled (r : LoginResponse)
| Logout.

Definition authStep (a : AuthState) (e : AuthEvent) : AuthState :=
  match e with
  | AuthEffect => authEffect a
  | UserSettled r => fetchUser_settled r a
  | LoginSettled r => (login_settled r a).1
  | Logout => logout a
  end.

End Auth.

(** A character [atob] rejects wherever it stands: not white space,
    not in the base64 alphabet and not the padding [=]; the [-] and [_]
    of the URL-safe alphabet are among them. *)
Definition notBase64 (c : N) : bool :=
  [&& ~~ isAsciiWhitespace c, base64_value c == None & c != 61%num].

(* ------------------------------------------------------------------ *)
(** ** Browsing orders and uploading images *)

(** [s.includes(t)]: [t] occurs in [s] as a run of code units. *)
Definition includes (s t : JsString) : bool := infix t s.

Section Search.
(** [String.prototype.toLowerCase], taken from the platform. *)
Variable toLowerCase : JsString -> JsString.

(** [order[k].toLowerCase()]: only a string has the method. *)
Definition lowered (order : JsValue) (k : JsString) : Result JsString :=
  v <~ getProp order k;;
  if v is Some (JStr s) then Ok (toLowerCase s) else Throw.

(** The callback of [orders.filter] in [BrowseOrders]:
    [[
      (order) =>
        order.order_name.toLowerCase().includes(searchQuery.toLowerCase()) ||
        order.order_desc.toLowerCase().includes(searchQuery.toLowerCase())
    ]] *)
Definition matchesQuery (searchQuery : JsString) (order : JsValue) : Result bool :=
  n <~ lowered order (js "order_name");;
  if includes n (toLowerCase searchQuery) then Ok true
  else d <~ lowered order (js "order_desc");;
       Ok (includes d (toLowerCase searchQuery)).

(** The value the effect of [BrowseOrders] gives [filteredOrders]:
    [[
      if (searchQuery.trim() === "") setFilteredOrders(orders);
      else setFilteredOrders(orders.filter(callback));
    ]] *)
Definition filterOrders (orders : seq JsValue) (searchQuery : JsString)
  : Result (seq JsValue) :=
  if trim searchQuery == [::] then Ok orders
  else Array_filter (matchesQuery searchQuery) orders.

(** An order the query finds. *)
Definition found (searchQuery : JsString) (order : JsValue) : bool :=
  if matchesQuery searchQuery order is Ok b then b else false.

End Search.

(** [reader.onloadend] in [handleImageUpload], for the value of
    [reader.result] ([None] is [null]):
    [[
      const base64 = reader.result as string;
      const base64Data = base64.split(",")[1];
      setImages((prev) => [...prev, base64Data]);
    ]] *)
Definition onloadend (result : option JsString) (images : seq (option JsString))
  : Result (seq (option JsString)) :=
  if result is Some base64
  then Ok (rcons images (at_index (split 44 base64) 1))
  else Throw.

(* ------------------------------------------------------------------ *)
(** ** Looking up the authors of reviews *)

(** The loop of [fetchReviews] over the reviews of the response,
    [[
      for (const review of reviewsData)
        if (review.user_reviewing) await fetchReviewer(review.user_reviewing);
    ]]
    for well-typed reviews, given by their [user_reviewing].  Each call
    is awaited, so its request settles before the next review is looked
    at: with the next answer of [net], a missing answer counting as a
    network error.  [seen] is the [reviewers] object of the render whose
    [fetchReviews] is running.  The result is the directory after the
    loop and the ids requested, in order. *)
Fixpoint fetchReviews_loop (seen : ProfileMap) (reviewerIds : seq Z)
    (net : seq ProfileResponse) (d : Directory) : Directory * seq Z :=
  match reviewerIds with
  | [::] => (d, [::])
  | reviewerId :: rest =>
      if reviewerId != 0%Z then
        if truthy (obj_get seen reviewerId)
        then fetchReviews_loop seen rest net (fetchReviewer seen reviewerId d)
        else
          let d1 :=
            fetchReviewer_settled reviewerId (head ProfileNetworkError net)
              (fetchReviewer seen reviewerId d) in
          let: (d2, asked) := fetchReviews_loop seen rest (behead net) d1 in
          (d2, reviewerId :: asked)
      else fetchReviews_loop seen rest net d
  end.

(** An answer that stores a profile the view will find. *)
Definition okAnswer (r : ProfileResponse) : bool :=
  if r is ProfileHttp true (Some user) then truthy (Some user) else false.

(* ------------------------------------------------------------------ *)
(** ** Offers received on one's orders *)








(* ------------------------------------------------------------------ *)
(** ** More of the example platform *)

(** Lower case for ASCII letters. *)
Definition asciiLower (s : JsString) : JsString :=
  [seq if N.leb 65 c && N.leb c 90 then (c + 32)%num else c | c <- s].

Definition ex_order (name desc : JsString) : JsValue :=
  JObj [:: (js "order_name", JStr name); (js "order_desc", JStr desc)].

Definition ex_orders : seq JsValue :=
  [:: ex_order (js "Laptop repair") (js "screen is broken");
      ex_order (js "Garden") (js "mow the lawn, then LAP the pool");
      ex_order (js "Logo") (js "vector file")].

(* ================================================================== *)
(** * Part II.  Properties *)

(* ------------------------------------------------------------------ *)
(** ** The definitions at work *)

Example trim_hi : trim (js "  hi ") = js "hi".
Proof. by []. Qed.

Example utc_toDateString_ex :
  utc_toDateString (Some 1714644000000%Z) = js "Thu May 02 2024"
  /\ utc_toDateString (Some 1714607400000%Z) = js "Wed May 01 2024"
  /\ utc_toLocaleDateString (Some 1714607400000%Z) = js "1 maj"
  /\ utc_toDateString (Some 0%Z) = js "Thu Jan 01 1970".
Proof. by vm_compute. Qed.

Example ingest_out_of_order :
  @ingestAll utc [::]
    (map toJs [:: ex_today_1005; ex_today_1000; ex_yesterday_2350; ex_today_1000_bis;
                  ex_replay])
  = Ok (map toJs [:: ex_yesterday_2350; ex_today_1000; ex_today_1000_bis; ex_today_1005]).
Proof. by vm_compute. Qed.

Example users_without_self :
  exists st,
    @run utc 7 initial [:: EffectRun ex_token; ex_directory; Selected 0] = Some st
    /\ users st = [:: userJs ex_user42] /\ selectedUser st = userJs ex_user42.
Proof. by eexists; split; [vm_compute; reflexivity|vm_compute]. Qed.

(** A profile that has been stored is not asked for again by a call
    that reads the new map. *)
Example fetchUserDetails_cached :
  let d0 := mkDirectory [::] [::] in
  let d1 := fetchUserDetails (dir_users d0) 7 d0 in
  let d2 := fetchUserDetails_settled 7 (ProfileHttp true (Some (userJs ex_user7))) d1 in
  dir_pending d1 = [:: 7%Z] /\ dir_pending d2 = [::]
  /\ fetchUserDetails (dir_users d2) 7 d2 = d2.
Proof. by []. Qed.

(* ------------------------------------------------------------------ *)
(** ** Trimming *)

Lemma trimStart_head s c r : trimStart s = c :: r -> ~~ isWhiteSpace c.
Proof.
elim: s => [|a s IH] //=; case: ifP => [_|na]; first exact: IH.
by case=> <- _; rewrite na.
Qed.

Lemma trimStart_rcons s c :
  ~~ isWhiteSpace c -> trimStart (rcons s c) = rcons (trimStart s) c.
Proof. by move=> nc; elim: s => [|a s IH] /=; [rewrite (negPf nc)|case: ifP]. Qed.

Lemma trimEnd_cons c r :
  ~~ isWhiteSpace c -> trimEnd (c :: r) = c :: trimEnd r.
Proof. by move=> nc; rewrite /trimEnd rev_cons trimStart_rcons // rev_rcons. Qed.

Lemma trimEnd_last s c r : trimEnd s = c :: r -> ~~ isWhiteSpace (last c r).
Proof.
rewrite /trimEnd; case e: (trimStart (rev s)) => [|d q] //.
rewrite rev_cons => e2.
have <- : d = last c r by rewrite -[last c r]/(last c (c :: r)) -e2 last_rcons.
exact: trimStart_head e.
Qed.

Lemma trim_edges s : ~~ edgeSpace (trim s).
Proof.
rewrite /edgeSpace; case e: (trim s) => [|c r] //; rewrite negb_or.
rewrite (trimEnd_last e) andbT; move: e; rewrite /trim.
case e': (trimStart s) => [|d q] //; have nd := trimStart_head e'.
by rewrite trimEnd_cons // => -[<- _].
Qed.

Lemma trim_idem s : trim (trim s) = trim s.
Proof.
have := trim_edges s; rewrite /edgeSpace; case e: (trim s) => [|c r] //.
rewrite negb_or => /andP[nc nl]; rewrite /trim /= (negPf nc) trimEnd_cons //.
congr (_ :: _); rewrite /trimEnd; case: (lastP r) nl => [|r' z] //.
by rewrite last_rcons rev_rcons /= => /negPf ->; rewrite rev_cons revK.
Qed.

(* ------------------------------------------------------------------ *)
(** ** Well-formed frames *)

Section TypedFacts.
Context {P : Platform}.

Lemma getTime_toJs m : getTime (toJs m) = Ok (time m).
Proof. by []. Qed.

Lemma leME a b :
  leM a b = match time a, time b with
            | Some x, Some y => (x <=? y)%Z
            | _, _ => true
            end.
Proof.
rewrite /leM /sortLe /compareFn !getTime_toJs /=.
case: (time a) => [x|] //; case: (time b) => [y|] //.
by apply/idP/idP => /Z.leb_le H; apply/Z.leb_le; lia.
Qed.

Lemma leM_valid a b : valid a -> valid b -> leM a b = (tval a <=? tval b)%Z.
Proof. by rewrite leME /valid /tval; case: (time a) => //; case: (time b). Qed.

Lemma leM_total : total leM.
Proof.
move=> a b; rewrite !leME; case: (time a) => [x|] //; case: (time b) => [y|] //.
by apply/orP; case: (Z.leb_spec x y) => H; [left|right] => //; apply/Z.leb_le; lia.
Qed.

Lemma leM_trans_in (s : seq Message) :
  all valid s -> {in s & &, transitive leM}.
Proof.
move=> /allP vs y x z /vs vy /vs vx /vs vz.
rewrite !leM_valid // => /Z.leb_le H1 /Z.leb_le H2; apply/Z.leb_le; lia.
Qed.

Lemma isNull_toJs s : has isNull (map toJs s) = false.
Proof. by elim: s. Qed.

Lemma some_same_id_toJs prev m :
  some_same_id (map toJs prev) (toJs m) = Ok (has (sameId m) prev).
Proof.
elim: prev => [|x prev IH] //=.
by rewrite /sameId; case: (message_id x == message_id m).
Qed.

Lemma Array_sort_toJs s : Array_sort (map toJs s) = Ok (map toJs (sort leM s)).
Proof. by rewrite /Array_sort isNull_toJs andbF sort_map. Qed.

Lemma ingest_toJs prev m :
  ingest (map toJs prev) (toJs m) = Ok (map toJs (ingestM prev m)).
Proof.
rewrite /ingest some_same_id_toJs /= /ingestM.
by case: (has _ _) => //; rewrite -map_rcons Array_sort_toJs.
Qed.

Lemma ingestAll_toJs prev ms :
  ingestAll (map toJs prev) (map toJs ms) = Ok (map toJs (foldl ingestM prev ms)).
Proof. by elim: ms prev => [|m ms IH] prev //=; rewrite ingest_toJs /= IH. Qed.

Lemma getMessagesWithUser_toJs cur s uid :
  getMessagesWithUser cur (map toJs s) uid = Ok (map toJs (filter (between cur uid) s)).
Proof.
rewrite /getMessagesWithUser; elim: s => [|m s IH] //=.
by rewrite IH /= /between; case: ifP.
Qed.

End TypedFacts.

(* ------------------------------------------------------------------ *)
(** ** Order of appearance *)

Section Precedes.
Variable T : eqType.
Implicit Types (s : seq T) (x y : T).

Lemma index_mem2 s x y : y \in s -> index x s <= index y s -> mem2 s x y.
Proof.
rewrite /mem2 => ys le_xy; move: ys; rewrite -{1}(cat_take_drop (index x s) s) mem_cat.
by case/orP=> // /index_ltn; rewrite ltnNge le_xy.
Qed.

Lemma mem2_index s x y : uniq s -> x != y -> mem2 s x y -> index x s < index y s.
Proof.
elim: s => [|a s IH] //= /andP[nas us] nxy; rewrite mem2_cons.
case: (eqVneq a x) => [ax|nax].
  by move=> _; rewrite ax (negPf nxy).
move=> m2; have ys := mem2r m2.
have -> : (a == y) = false by apply/negP => /eqP ay; rewrite ay ys in nas.
by rewrite ltnS; apply: IH.
Qed.

Lemma mem2_filter (p : pred T) s x y :
  p x -> p y -> mem2 s x y -> mem2 (filter p s) x y.
Proof.
move=> px py; rewrite !mem2E subseq_filter => ->.
by case: ifP => _ /=; rewrite ?px ?py.
Qed.

Lemma mem2_rcons s x y z :
  mem2 (rcons s z) x y -> mem2 s x y \/ (y = z /\ x \in rcons s z).
Proof.
move=> m2; have xs := mem2l m2; move: m2.
rewrite -cats1 mem2_cat mem2_seq1 mem_seq1.
case/orP=> [/orP[->|/andP[_ /eqP ->]]|/andP[_ /eqP ->]]; first by left.
- by right; rewrite cats1.
- by right; rewrite cats1.
Qed.

End Precedes.

(* ------------------------------------------------------------------ *)
(** ** The stable sort is determined *)

Section StableSort.
Variables (T : eqType) (leT : rel T).
Implicit Types (s : seq T).

Let lex s : rel T := [rel x y | leT x y && (leT y x ==> (index x s < index y s))].

Lemma sorted_by_index s : uniq s -> sorted (fun x y => index x s < index y s) s.
Proof.
move=> us; rewrite sorted_pairwise; first by move=> y x z; apply: ltn_trans.
case: s us => // x0 s us; apply/(pairwiseP x0) => i j.
by rewrite !inE => si sj ij; rewrite !index_uniq.
Qed.

(** On distinct elements a total, transitive comparison has exactly one
    stable sorted arrangement, so every conforming [Array.prototype.sort]
    returns what [sort] returns. *)
Lemma stable_sort_unique s s' :
  uniq s -> {in s &, total leT} -> {in s & &, transitive leT} ->
  perm_eq s' s -> sorted leT s' -> keepsTies leT s s' -> s' = sort leT s.
Proof.
move=> us tot tr pe ss' kt.
have mem' : s' =i s := perm_mem pe.
have us' : uniq s' by rewrite (perm_uniq pe).
have A : sorted (lex s) (sort leT s).
  apply: (@sort_stable_in _ [in s] leT (fun x y => index x s < index y s)
            tot _ s (allss s) (sorted_by_index us)).
  by move=> y x z _ _ _; apply: ltn_trans.
have B : sorted (lex s) s'.
  apply: pairwise_sorted.
  have pw : pairwise leT s'.
    rewrite -(@sorted_pairwise_in _ [in s] leT) //.
    by apply/allP => x; rewrite mem'.
  case: s' us' mem' pw kt {ss' pe} => // x0 s' us' mem' pw kt.
  have /(pairwiseP x0) hp := pw.
  apply/(pairwiseP x0) => i j si sj ij.
  have lij := hp i j si sj ij; rewrite /lex /= lij /=.
  move: si sj; rewrite !inE => si sj.
  apply/implyP => lji; rewrite ltnNge; apply/negP => le_idx.
  have xin : nth x0 (x0 :: s') i \in s by rewrite -mem' mem_nth.
  have m2 := kt _ _ lji lij (index_mem2 xin le_idx).
  have neq : nth x0 (x0 :: s') j != nth x0 (x0 :: s') i.
    by rewrite nth_uniq // neq_ltn ij orbT.
  by have := mem2_index us' neq m2; rewrite !index_uniq // ltnNge (ltnW ij).
apply: (irr_sorted_eq_in _ _ B A).
- move=> y x z; rewrite !mem' => ys xs zs /andP[lxy /implyP ixy] /andP[lyz /implyP iyz].
  rewrite /lex /= (tr _ _ _ ys xs zs lxy lyz) /=; apply/implyP => lzx.
  apply: ltn_trans (ixy _) (iyz _); first exact: (tr _ _ _ zs ys xs lyz lzx).
  exact: (tr _ _ _ xs zs ys lzx lxy).
- move=> x; rewrite mem' => xs; rewrite /lex /= ltnn implybF andbN //.
- by move=> x; rewrite mem_sort.
Qed.

End StableSort.

(* ------------------------------------------------------------------ *)
(** ** Invariants of the message array *)

Section StoreInvariant.
Context {P : Platform}.
Implicit Types (store acc ms : seq Message) (m x y : Message).

Lemma has_sameId store m : has (sameId m) store = (message_id m \in map message_id store).
Proof.
apply/hasP/mapP => [[x xs /eqP e]|[x xs e]]; first by exists x.
by exists x => //; rewrite /sameId e.
Qed.

Lemma perm_ingestM store m : perm_eq (ingestM store m) (acceptM store m).
Proof. by rewrite /ingestM /acceptM; case: ifP => // _; rewrite perm_sort. Qed.

(** One step keeps the array a permutation of the accepted messages and
    the accepted ids distinct. *)
Lemma ingestM_step store acc m :
  perm_eq store acc -> uniq (map message_id acc) ->
  perm_eq (ingestM store m) (acceptM acc m) /\ uniq (map message_id (acceptM acc m)).
Proof.
move=> pe un; rewrite /ingestM /acceptM (perm_has _ pe).
case: ifP => [//|nh]; split; first by rewrite perm_sort -!cats1 perm_cat2r.
by rewrite map_rcons rcons_uniq un -has_sameId nh.
Qed.

Lemma ingestM_run store acc ms :
  perm_eq store acc -> uniq (map message_id acc) ->
  perm_eq (foldl ingestM store ms) (foldl acceptM acc ms)
  /\ uniq (map message_id (foldl acceptM acc ms)).
Proof.
elim: ms store acc => [|m ms IH] store acc pe un //=.
by have [pe' un'] := ingestM_step m pe un; apply: IH.
Qed.

Lemma store_perm ms :
  perm_eq (foldl ingestM [::] ms) (accepted ms) /\ uniq (map message_id (accepted ms)).
Proof. exact: ingestM_run. Qed.

Lemma store_uniq_ids ms : uniq (map message_id (foldl ingestM [::] ms)).
Proof.
have [pe un] := store_perm ms.
by rewrite (perm_uniq (perm_map message_id pe)).
Qed.

(** An id that was offered stays present. *)
Lemma id_kept store ms x :
  has (sameId x) store || has (sameId x) ms -> has (sameId x) (foldl ingestM store ms).
Proof.
elim: ms store => [|m ms IH] store /=; first by rewrite orbF.
rewrite orbA => h; apply: IH; case/orP: h => [h|->]; last by rewrite orbT.
apply/orP; left; case/orP: h => [hs|xm].
  by rewrite (perm_has _ (perm_ingestM store m)) /acceptM; case: ifP; rewrite ?has_rcons ?hs ?orbT.
rewrite /ingestM; case: ifP => [/hasP[z zs zm]|_].
  by apply/hasP; exists z => //; move: zm xm; rewrite /sameId => /eqP -> /eqP ->.
by rewrite (perm_has _ (permEl (perm_sort _ _))) has_rcons xm.
Qed.

Lemma sorted_ingestM store m : sorted leM store -> sorted leM (ingestM store m).
Proof. by rewrite /ingestM; case: ifP => // _ _; apply: sort_sorted leM_total _. Qed.

Lemma sorted_store store ms : sorted leM store -> sorted leM (foldl ingestM store ms).
Proof. by elim: ms store => [|m ms IH] store //= /(sorted_ingestM m) /IH. Qed.

Lemma valid_ingestM store m : all valid store -> valid m -> all valid (ingestM store m).
Proof.
move=> vs vm; rewrite (perm_all _ (perm_ingestM store m)) /acceptM.
by case: ifP => // _; rewrite all_rcons vm.
Qed.

(** Stability of one step: a message that came no later than another
    and whose time is not greater stays in front of it. *)
Lemma stable_ingestM store acc m :
  all valid store -> valid m -> perm_eq store acc ->
  (forall x y, leM x y -> mem2 acc x y -> mem2 store x y) ->
  forall x y, leM x y -> mem2 (acceptM acc m) x y -> mem2 (ingestM store m) x y.
Proof.
move=> vs vm pe st x y lxy; rewrite /ingestM /acceptM (perm_has _ pe).
case: ifP => [_|_]; first exact: st.
have vr : all valid (rcons store m) by rewrite all_rcons vm.
move=> m2; apply: (mem2_sort_in _ (leM_trans_in vr)) => //.
  by move=> a b _ _; apply: leM_total.
case/mem2_rcons: m2 => [/(st _ _ lxy) m2|[-> xin]].
  by rewrite -cats1 mem2_cat m2.
have xin' : x \in rcons store m by move: xin; rewrite !mem_rcons !inE (perm_mem pe).
by rewrite -[X in mem2 _ _ X](last_rcons m store m) mem2_last.
Qed.

Lemma stable_run store acc ms :
  all valid store -> all valid ms -> perm_eq store acc ->
  (forall x y, leM x y -> mem2 acc x y -> mem2 store x y) ->
  forall x y, leM x y -> mem2 (foldl acceptM acc ms) x y ->
              mem2 (foldl ingestM store ms) x y.
Proof.
elim: ms store acc => [|m ms IH] store acc vs //= /andP[vm vms] pe st.
apply: IH => //; first exact: valid_ingestM.
  by rewrite (permPl (perm_ingestM store m)) /acceptM (perm_has _ pe); case: ifP;
     rewrite // -!cats1 perm_cat2r.
exact: stable_ingestM.
Qed.

End StoreInvariant.

(* ------------------------------------------------------------------ *)
(** ** The message store: ordering and deduplication *)

Section StoreTheorems.
Context {P : Platform}.
Implicit Types (store acc ms : seq Message) (m x y : Message).

Lemma leM_trans : {in valid & &, transitive leM}.
Proof.
move=> y x z vy vx vz.
rewrite !leM_valid // => /Z.leb_le H1 /Z.leb_le H2; apply/Z.leb_le; lia.
Qed.

Lemma leM_tvalE : {in valid &, leM =2 (fun a b => (tval a <=? tval b)%Z)}.
Proof. by move=> a b va vb; rewrite leM_valid. Qed.

Lemma valid_run store ms :
  all valid store -> all valid ms -> all valid (foldl ingestM store ms).
Proof.
elim: ms store => [|m ms IH] store vs //= /andP[vm vms].
by apply: IH => //; apply: valid_ingestM.
Qed.

Lemma uniq_store ms : uniq (foldl ingestM [::] ms).
Proof. exact: map_uniq (store_uniq_ids ms). Qed.

Lemma precedes_mem2 (s : seq Message) x y : precedes s x y -> mem2 s x y.
Proof. by case/and3P=> _ ys /ltnW; apply: index_mem2. Qed.

Lemma precedes_neq (s : seq Message) x y : precedes s x y -> x != y.
Proof. by case/and3P=> _ _; apply: contraTneq => ->; rewrite ltnn. Qed.

Lemma mem2_precedes (s : seq Message) x y :
  uniq s -> x != y -> mem2 s x y -> precedes s x y.
Proof.
by move=> us nxy m2; rewrite /precedes (mem2l m2) (mem2r m2) mem2_index.
Qed.

(** C4 (as the code has it).  Sorted projection with stable ties, when
    every [sent_at] parses.  For every run of well-formed frames whose
    [sent_at] parse, the array after the run holds exactly the accepted
    messages, and for every pair of participants the projection
    [getMessagesWithUser] returns is sorted non-decreasingly by time; a
    message with a strictly smaller time comes before one with a larger
    time whatever the arrival order, and two messages with equal times
    keep the order in which they were accepted.  The code does not look
    at [sent_at] before it stores a frame, so the condition is one on
    the frames. *)
Theorem projection_sorted_stable (currentUserId userId : Z) (ms : seq Message) :
  all valid ms ->
  exists store proj : seq Message,
    ingestAll [::] (map toJs ms) = Ok (map toJs store)
    /\ getMessagesWithUser currentUserId (map toJs store) userId = Ok (map toJs proj)
    /\ perm_eq store (accepted ms)
    /\ sorted (fun a b => (tval a <=? tval b)%Z) proj
    /\ (forall m1 m2, m1 \in proj -> m2 \in proj ->
          (tval m1 < tval m2)%Z -> precedes proj m1 m2)
    /\ (forall m1 m2, m1 \in proj -> m2 \in proj -> tval m1 = tval m2 ->
          precedes (accepted ms) m1 m2 -> precedes proj m1 m2).
Proof.
move=> vms; pose store := foldl (@ingestM P) [::] ms.
pose proj := filter (between currentUserId userId) store.
have vs : all valid store by apply: valid_run.
have vp : all valid proj by apply/allP => x; rewrite mem_filter => /andP[_ /(allP vs)].
have ss : sorted leM store by apply: sorted_store.
have sp : sorted leM proj by apply: (sorted_filter_in leM_trans vs).
have up : uniq proj by rewrite filter_uniq // uniq_store.
exists store, proj; split; first exact: (ingestAll_toJs [::]).
split; first exact: getMessagesWithUser_toJs.
split; first by case: (store_perm ms).
split; first by rewrite -(eq_in_sorted leM_tvalE vp).
split=> [m1 m2 i1 i2 lt12|m1 m2 i1 i2 e12 pr].
  rewrite /precedes i1 i2 /= ltnNge; apply/negP => le21.
  have : leM m2 m1.
    apply: (sorted_leq_index_in _ _ sp) => //.
    - by move=> b a c /(allP vp) vb /(allP vp) va /(allP vp) vc; apply: leM_trans.
    - by move=> a _; rewrite leME; case: (time a) => // t; apply/Z.leb_le; lia.
  by rewrite leM_valid ?(allP vp) // => /Z.leb_le; lia.
have l12 : leM m1 m2 by rewrite leM_valid ?(allP vp) // e12; apply/Z.leb_le; lia.
apply: mem2_precedes => //; first exact: precedes_neq pr.
move: i1 i2; rewrite !mem_filter => /andP[b1 _] /andP[b2 _].
apply: mem2_filter => //.
apply: (@stable_run _ [::] [::] ms) => //.
exact: precedes_mem2.
Qed.

Lemma ingestM_dup store m : has (sameId m) store -> ingestM store m = store.
Proof. by rewrite /ingestM => ->. Qed.

(** C5.  Deduplication.  Once a message has been offered, offering a
    message with the same id again returns the array unchanged, without
    an error; a run that offers the id a second time ends in the same
    array as the run without the second offer; and after every run of
    well-formed frames the ids in the array are pairwise distinct. *)
Theorem ingest_dedup_idempotent (ms rest tail : seq Message) (m m' : Message) :
  message_id m' = message_id m ->
  (exists2 store : seq Message,
      ingestAll [::] (map toJs (ms ++ m :: rest)) = Ok (map toJs store)
      & ingest (map toJs store) (toJs m') = Ok (map toJs store))
  /\ ingestAll [::] (map toJs (ms ++ m :: rest ++ m' :: tail))
     = ingestAll [::] (map toJs (ms ++ m :: rest ++ tail))
  /\ (forall frames : seq Message,
        exists2 store : seq Message,
          ingestAll [::] (map toJs frames) = Ok (map toJs store)
          & uniq (map message_id store)).
Proof.
move=> eid.
have kept : has (sameId m') (foldl (@ingestM P) [::] (ms ++ m :: rest)).
  by apply: id_kept; rewrite /= has_cat /= /sameId eid eqxx orbT.
split; [|split].
- exists (foldl ingestM [::] (ms ++ m :: rest)); first exact: (ingestAll_toJs [::]).
  by rewrite ingest_toJs ingestM_dup.
- rewrite !(ingestAll_toJs [::]); congr (Ok (map toJs _)).
  have -> : ms ++ m :: rest ++ m' :: tail = (ms ++ m :: rest) ++ m' :: tail.
    by rewrite -catA.
  have -> : ms ++ m :: rest ++ tail = (ms ++ m :: rest) ++ tail by rewrite -catA.
  by rewrite !(foldl_cat _ _ (ms ++ m :: rest)) /= ingestM_dup.
- by move=> frames; exists (foldl ingestM [::] frames);
    [exact: (ingestAll_toJs [::]) | exact: store_uniq_ids].
Qed.

Lemma asMessage_toJs m : asMessage (toJs m) = Some m.
Proof. by case: m. Qed.

End StoreTheorems.

Lemma projection_sorted_stable_witness :
  all (@valid utc) [:: ex_today_1005; ex_today_1000; ex_yesterday_2350; ex_today_1000_bis]
  /\ exists store proj : seq Message,
       @ingestAll utc [::]
         (map toJs [:: ex_today_1005; ex_today_1000; ex_yesterday_2350; ex_today_1000_bis])
       = Ok (map toJs store)
       /\ getMessagesWithUser 7 (map toJs store) 42 = Ok (map toJs proj)
       /\ perm_eq store
            (accepted [:: ex_today_1005; ex_today_1000; ex_yesterday_2350;
                          ex_today_1000_bis])
       /\ sorted (fun a b => (@tval utc a <=? @tval utc b)%Z) proj
       /\ (forall m1 m2, m1 \in proj -> m2 \in proj ->
             (@tval utc m1 < @tval utc m2)%Z -> precedes proj m1 m2)
       /\ (forall m1 m2, m1 \in proj -> m2 \in proj -> @tval utc m1 = @tval utc m2 ->
             precedes
               (accepted [:: ex_today_1005; ex_today_1000; ex_yesterday_2350;
                             ex_today_1000_bis]) m1 m2 ->
             precedes proj m1 m2).
Proof.
split; first by vm_compute.
by apply: (@projection_sorted_stable utc 7 42
             [:: ex_today_1005; ex_today_1000; ex_yesterday_2350; ex_today_1000_bis]);
   vm_compute.
Defined.

(** C4 as stated fails: without the condition on [sent_at] a projection
    can be out of order.  The frames arrive in the order 23:50, 10:05,
    a frame of users 5 and 6 whose [sent_at] is "soon", 10:00.  The
    comparator gives [NaN] against the third frame, which [sort] reads
    as a tie, so the array is taken to be in order as it stands and the
    late 10:00 stays behind 10:05 in the conversation of 7 and 42,
    although its time is smaller and all three of its messages carry
    dates. *)
Lemma unparsable_time_breaks_order :
  let ms := [:: ex_yesterday_2350; ex_today_1005; ex_unparsable; ex_today_1000] in
  let proj := [:: ex_yesterday_2350; ex_today_1005; ex_today_1000] in
  [/\ @ingestAll utc [::] (map toJs ms) = Ok (map toJs ms),
      getMessagesWithUser 7 (map toJs ms) 42 = Ok (map toJs proj),
      all (@valid utc) proj /\ ~~ @valid utc ex_unparsable,
      (@tval utc ex_today_1000 < @tval utc ex_today_1005)%Z
      /\ ~~ precedes proj ex_today_1000 ex_today_1005
    & ~~ sorted (fun a b => (@tval utc a <=? @tval utc b)%Z) proj].
Proof. by split; vm_compute. Qed.

Lemma ingest_dedup_idempotent_witness :
  message_id ex_replay = message_id ex_today_1000
  /\ @ingestAll utc [::]
       (map toJs ([:: ex_yesterday_2350] ++ ex_today_1000 :: [:: ex_today_1005]
                    ++ ex_replay :: [:: ex_today_1000_bis]))
     = @ingestAll utc [::]
         (map toJs ([:: ex_yesterday_2350] ++ ex_today_1000 :: [:: ex_today_1005]
                      ++ [:: ex_today_1000_bis])).
Proof.
split; first by [].
by case: (@ingest_dedup_idempotent utc [:: ex_yesterday_2350] [:: ex_today_1005]
            [:: ex_today_1000_bis] ex_today_1000 ex_replay (erefl _)) => _ [].
Defined.

(* ------------------------------------------------------------------ *)
(** ** The rendered column *)

Section Column.
Context {P : Platform}.

Lemma renderStep_toJs now (s1 s2 : seq Message) m a :
  renderStep now (map toJs (s1 ++ m :: s2)) (Ok a) (size s1)
  = Ok (a ++ (if Some (label now m) != lastLabel now s1
              then [:: DateHeader (label now m)] else [::])
          ++ [:: Bubble (toJs m)]).
Proof.
unfold renderStep; rewrite /= map_cat nth_cat size_map ltnn subnn /=.
case: s1 => [|x s1] /=; first by rewrite -!cats1 -catA.
rewrite -cat_cons -map_cons nth_cat size_map [size (x :: s1)]/= ltnSn (nth_map x) //.
rewrite -[nth x _ _]/(nth x (x :: s1) (size (x :: s1)).-1) nth_last /= /label.
by case: ifP => _; rewrite -!cats1 -?catA.
Qed.

Local Arguments renderStep : simpl never.

Lemma render_from now (s1 s2 : seq Message) a :
  foldl (renderStep now (map toJs (s1 ++ s2))) (Ok a) (iota (size s1) (size s2))
  = Ok (a ++ column now (lastLabel now s1) s2).
Proof.
elim: s2 s1 a => [|m s2 IH] s1 a /=; first by rewrite cats0.
rewrite renderStep_toJs -cat_rcons -(size_rcons s1 m) IH.
rewrite -!catA /=; congr (Ok (_ ++ _ ++ _ :: column _ _ _)).
by rewrite /lastLabel; case: s1 => [|x s1] //=; rewrite last_rcons.
Qed.

Lemma renderMessages_toJs now (ms : seq Message) :
  renderMessages now (map toJs ms) = Ok (column now None ms).
Proof. by rewrite /renderMessages size_map (render_from now [::] ms [::]). Qed.

Lemma bubbles_column now prev ms : bubbles (column now prev ms) = map toJs ms.
Proof.
elim: ms prev => [|m ms IH] prev //=.
by rewrite /bubbles pmap_cat /=; case: ifP => _ /=; rewrite -/(bubbles _) IH.
Qed.

Lemma flatten_addNode gs n :
  flatten [seq g.2 | g <- addNode gs n]
  = flatten [seq g.2 | g <- gs] ++ bubbles [:: n].
Proof.
case: n => [l|m]; first by rewrite /= map_rcons flatten_rcons /= !cats0.
case: gs => [|g r] //.
rewrite [in RHS](lastI g r) /addNode !map_rcons !flatten_rcons /=.
by rewrite -cats1 catA.
Qed.

Lemma flatten_foldl_addNode gs nodes :
  flatten [seq g.2 | g <- foldl addNode gs nodes]
  = flatten [seq g.2 | g <- gs] ++ bubbles nodes.
Proof.
elim: nodes gs => [|n nodes IH] gs /=; first by rewrite cats0.
by rewrite IH flatten_addNode -catA /bubbles -pmap_cat.
Qed.

Lemma flatten_groupsOf nodes :
  flatten [seq g.2 | g <- groupsOf nodes] = bubbles nodes.
Proof. exact: flatten_foldl_addNode. Qed.

End Column.

Section DayExample.
Context {P : Platform}.

Lemma formatDate_today now m t :
  time m = Some t -> toDateString (Some t) = toDateString (Some now) ->
  label now m = js "Dzisiaj".
Proof. by rewrite /label /formatDate -/(time m) => -> ->; rewrite eqxx. Qed.

Lemma formatDate_yesterday now m t :
  time m = Some t ->
  toDateString (Some t) = toDateString (Some (setDate_prev now)) ->
  toDateString (Some (setDate_prev now)) <> toDateString (Some now) ->
  label now m = js "Wczoraj".
Proof.
rewrite /label /formatDate -/(time m) => -> -> /eqP /negPf ->.
by rewrite eqxx.
Qed.

(** Messages stamped today, today and yesterday, arriving in that
    order between the current user and the selected one, on any
    platform. *)
Lemma day_grouping_today_yesterday (now cur uid : Z) (m1 m2 m3 : Message) (t1 t2 t3 : Z) :
  time m1 = Some t1 -> time m2 = Some t2 -> time m3 = Some t3 ->
  (t3 < t1 <= t2)%Z ->
  uniq [:: message_id m1; message_id m2; message_id m3] ->
  all (between cur uid) [:: m1; m2; m3] ->
  toDateString (Some t1) = toDateString (Some now) ->
  toDateString (Some t2) = toDateString (Some now) ->
  toDateString (Some t3) = toDateString (Some (setDate_prev now)) ->
  toDateString (Some (setDate_prev now)) <> toDateString (Some now) ->
  exists store proj : seq JsValue, exists nodes : seq Node,
    [/\ ingestAll [::] (map toJs [:: m1; m2; m3]) = Ok store,
        getMessagesWithUser cur store uid = Ok proj,
        renderMessages now proj = Ok nodes
      & groupsOf nodes
        = [:: (js "Wczoraj", [:: toJs m3]); (js "Dzisiaj", [:: toJs m1; toJs m2])]].
Proof.
move=> e1 e2 e3 [lt31 le12] /and3P[n1 n2 _] /and4P[b1 b2 b3 _] d1 d2 d3 dn.
have [n12 n13] : message_id m1 != message_id m2 /\ message_id m1 != message_id m3.
  by move: n1; rewrite !inE negb_or => /andP[].
have n23 : message_id m2 != message_id m3 by move: n2; rewrite inE.
have l12 : leM m1 m2 by rewrite leME e1 e2; apply/Z.leb_le.
have l31 : leM m1 m3 = false by rewrite leME e1 e3; apply/Z.leb_gt.
exists (map toJs [:: m3; m1; m2]), (map toJs [:: m3; m1; m2]).
exists (column now None [:: m3; m1; m2]); split.
- rewrite (ingestAll_toJs [::]); congr (Ok (map toJs _)).
  rewrite /= /ingestM /= /sameId (negPf n12) /=.
  by rewrite /sort /= l12 /= (negPf n13) (negPf n23) /= l12 /= l31.
- by rewrite getMessagesWithUser_toJs /= b1 b2 b3.
- exact: renderMessages_toJs.
- rewrite /= (formatDate_yesterday e3 d3 dn) (formatDate_today e1 d1).
  by rewrite (formatDate_today e2 d2).
Qed.

End DayExample.

(** C8.  Day grouping.  For every list of messages the rendered column
    exists, and the groups it shows, concatenated in order, are exactly
    the messages in their order: each message lies in one group and the
    groups follow the sequence.  On every platform, frames stamped
    today, later today and yesterday, arriving in that order, are shown
    as the group "Wczoraj" (yesterday) with the third message followed
    by the group "Dzisiaj" (today) with the first two; so on the UTC
    platform at noon of 2024-05-02 for the stamps 10:00, 10:05 and
    23:50 of the day before. *)
Theorem day_grouping :
  [/\ forall (P : Platform) (now : Z) (ms : seq Message),
        exists nodes : seq Node,
          renderMessages now (map toJs ms) = Ok nodes
          /\ flatten [seq g.2 | g <- groupsOf nodes] = map toJs ms,
      forall (P : Platform) (now cur uid : Z) (m1 m2 m3 : Message) (t1 t2 t3 : Z),
        time m1 = Some t1 -> time m2 = Some t2 -> time m3 = Some t3 ->
        (t3 < t1 <= t2)%Z ->
        uniq [:: message_id m1; message_id m2; message_id m3] ->
        all (between cur uid) [:: m1; m2; m3] ->
        toDateString (Some t1) = toDateString (Some now) ->
        toDateString (Some t2) = toDateString (Some now) ->
        toDateString (Some t3) = toDateString (Some (setDate_prev now)) ->
        toDateString (Some (setDate_prev now)) <> toDateString (Some now) ->
        exists store proj : seq JsValue, exists nodes : seq Node,
          [/\ ingestAll [::] (map toJs [:: m1; m2; m3]) = Ok store,
              getMessagesWithUser cur store uid = Ok proj,
              renderMessages now proj = Ok nodes
            & groupsOf nodes
              = [:: (js "Wczoraj", [:: toJs m3]); (js "Dzisiaj", [:: toJs m1; toJs m2])]]
    & exists store proj : seq JsValue, exists nodes : seq Node,
        [/\ @ingestAll utc [::]
              (map toJs [:: ex_today_1000; ex_today_1005; ex_yesterday_2350]) = Ok store,
            @getMessagesWithUser 7 store 42 = Ok proj,
            @renderMessages utc ex_now proj = Ok nodes
          & groupsOf nodes
            = [:: (js "Wczoraj", [:: toJs ex_yesterday_2350]);
                  (js "Dzisiaj", [:: toJs ex_today_1000; toJs ex_today_1005])]]].
Proof.
split=> [P now ms|P now cur uid m1 m2 m3 t1 t2 t3|].
- exists (column now None ms); split; first exact: renderMessages_toJs.
  by rewrite flatten_groupsOf bubbles_column.
- exact: day_grouping_today_yesterday.
- by apply: (@day_grouping_today_yesterday utc ex_now 7 42 ex_today_1000 ex_today_1005
               ex_yesterday_2350 1714644000000 1714644300000 1714607400000);
     vm_compute.
Qed.

(* ------------------------------------------------------------------ *)
(** ** The inbound boundary *)

(** A frame that parses reaches the message array through the updater
    and nothing else. *)
Lemma onmessage_parsed (P : Platform) (st : ChatState) (data : JsString) message :
  JSON_parse data = Some message ->
  onmessage st data = (next <~ ingest (messages st) message;; Ok (setMessages st next)).
Proof. by rewrite /onmessage => ->. Qed.

(** C6 (as the code has it).  A frame [JSON.parse] rejects is dropped:
    the handler returns normally and leaves the whole state, the message
    array included, as it was. *)
Theorem onmessage_drops_unparsable (P : Platform) (st : ChatState) (data : JsString) :
  JSON_parse data = None -> onmessage st data = Ok st.
Proof. by rewrite /onmessage => ->. Qed.

Lemma onmessage_drops_unparsable_witness :
  @JSON_parse utc (js "{oops") = None
  /\ @onmessage utc initial (js "{oops") = Ok initial.
Proof.
split; first by vm_compute.
by apply: (@onmessage_drops_unparsable utc initial (js "{oops")); vm_compute.
Defined.

(** C6 as stated fails: the frame [{}] is JSON but not a [Message], and
    the handler stores it; the frame [null] is stored as well, after
    which reading the projection raises; and [null] arriving at a
    non-empty array makes the updater raise. *)
Lemma onmessage_stores_non_message :
  [/\ @JSON_parse utc (js "{}") = Some (JObj [::]) /\ asMessage (JObj [::]) = None,
      @onmessage utc initial (js "{}") = Ok (setMessages initial [:: JObj [::]])
      /\ messages (setMessages initial [:: JObj [::]]) <> messages initial,
      @onmessage utc initial (js "null") = Ok (setMessages initial [:: JNull])
      /\ getMessagesWithUser 7 [:: JNull] 42 = Throw
    & @onmessage utc (setMessages initial [:: toJs ex_today_1000]) (js "null") = Throw].
Proof. by split; vm_compute. Qed.

(* ------------------------------------------------------------------ *)
(** ** Sending *)

Lemma truthy_getProp v k : truthy (Some v) -> exists r, getProp v k = Ok r.
Proof. by case: v => //=; eexists. Qed.

Lemma getProp_truthy v k x : getProp v k = Ok (Some x) -> truthy (Some v).
Proof. by case: v. Qed.

Lemma sendMessage_open cur st h :
  wsRef st = Some h -> readyState st h = OPEN -> truthy (Some (selectedUser st)) ->
  trim (newMessage st) <> [::] ->
  sendMessage cur st = Ok (sent cur st h).
Proof.
rewrite /sendMessage /sent /receiverOf /ws_send => -> -> tr.
have [r ->] := truthy_getProp (js "user_id") tr; rewrite tr /=.
by case: (trim (newMessage st)).
Qed.

(** [sendMessage] never raises. *)
Lemma sendMessage_total cur st : exists st', sendMessage cur st = Ok st'.
Proof.
rewrite /sendMessage; case: (trim _) => [|c r]; first by eexists.
case tr: (truthy _) => /=; last by eexists.
case: (wsRef st) => [h|]; last by eexists.
by have [x ->] := truthy_getProp (js "user_id") tr; eexists.
Qed.

(** C9.  The content that goes out is the trimmed draft.  A call of
    [sendMessage] returns normally and either writes nothing, or writes
    one frame whose content is [trim] of the draft, which is then not
    empty and neither starts nor ends with white space; and with a
    correspondent selected and the socket open, every draft that does
    not trim to empty is sent as its [trim]. *)
Theorem sent_content_is_trimmed (cur : Z) (st : ChatState) :
  exists st', sendMessage cur st = Ok st'
  /\ (wire st' = wire st
      \/ exists h,
           wire st'
           = rcons (wire st)
               (h, mkMessageData cur (receiverOf st) (trim (newMessage st)))
           /\ trim (newMessage st) <> [::]
           /\ ~~ edgeSpace (trim (newMessage st)))
  /\ (forall h,
        wsRef st = Some h -> readyState st h = OPEN ->
        truthy (Some (selectedUser st)) -> trim (newMessage st) <> [::] ->
        wire st'
        = rcons (wire st)
            (h, mkMessageData cur (receiverOf st) (trim (newMessage st)))).
Proof.
have [st' e] := sendMessage_total cur st; exists st'; split=> //; split; last first.
  by move=> h rh op tr nt; move: e; rewrite (sendMessage_open cur rh op tr nt) => -[<-].
move: e; rewrite /sendMessage /receiverOf; have := trim_edges (newMessage st).
case: (trim (newMessage st)) => [|c r] te; first by case=> <-; left.
case tr: (truthy _) => /=; last by case=> <-; left.
case: (wsRef st) => [h|]; last by case=> <-; left.
have [x ->] := truthy_getProp (js "user_id") tr; rewrite /= /ws_send.
by case: (readyState st h) => /= -[<-]; try (by left); right; exists h.
Qed.

(** C3 (as the code has it).  [sendMessage] returns normally.  It leaves
    the state unchanged when the draft trims to empty, when no
    correspondent is selected ([selectedUser] is [null] or another falsy
    value) and when there is no socket in [wsRef]; also when the socket
    is still connecting, where [send] raises and the [catch] takes over.
    Whenever the socket is not open nothing is written.  With the socket
    open, a correspondent selected and a draft that does not trim to
    empty, exactly one frame is written, carrying the current user, the
    correspondent's [user_id] and the trimmed draft, and the draft is
    cleared; for the draft "hi" and correspondent 42 the frame is
    [{sender_id, receiver_id: 42, content: "hi"}]. *)
Theorem sendMessage_gating (cur : Z) (st : ChatState) :
  exists st', sendMessage cur st = Ok st'
  /\ [/\ trim (newMessage st) = [::] \/ ~~ truthy (Some (selectedUser st))
           \/ wsRef st = None -> st' = st,
         forall h, wsRef st = Some h -> readyState st h = CONNECTING -> st' = st,
         forall h, wsRef st = Some h -> readyState st h <> OPEN ->
                   wire st' = wire st,
         forall h, wsRef st = Some h -> readyState st h = OPEN ->
                   truthy (Some (selectedUser st)) ->
                   trim (newMessage st) <> [::] -> st' = sent cur st h
       & forall h, wsRef st = Some h -> readyState st h = OPEN ->
                   getProp (selectedUser st) (js "user_id") = Ok (Some (JNum 42)) ->
                   newMessage st = js "hi" ->
           wire st' = rcons (wire st) (h, mkMessageData cur (Some (JNum 42)) (js "hi"))].
Proof.
have [st' e] := sendMessage_total cur st; exists st'; split=> //; split.
- move=> hyp; move: e; rewrite /sendMessage.
  case: (trim (newMessage st)) hyp => [|c r] hyp; first by case.
  case: hyp => [//|[/negPf ->|->]]; first by case.
  by case: (truthy (Some (selectedUser st))) => -[].
- move=> h rh cn; move: e; rewrite /sendMessage rh /ws_send cn.
  case: (trim (newMessage st)) => [|c r]; first by case.
  case tr: (truthy _) => /=; last by case.
  by have [x ->] := truthy_getProp (js "user_id") tr; case.
- move=> h rh nop; move: e; rewrite /sendMessage rh /ws_send.
  case: (trim (newMessage st)) => [|c r]; first by case=> <-.
  case tr: (truthy _) => /=; last by case=> <-.
  have [x ->] := truthy_getProp (js "user_id") tr => /=.
  by case: (readyState st h) nop => //= _ [<-].
- by move=> h rh op tr nt; move: e; rewrite (sendMessage_open cur rh op tr nt) => -[].
- move=> h rh op g42 nm; move: e.
  rewrite (sendMessage_open cur rh op (getProp_truthy g42)) ?nm // => -[<-].
  by rewrite /sent /receiverOf g42 nm.
Qed.

(** The example of C3 run from the first render: the directory answers,
    the user clicks on the entry of user 42 and types " hi ". *)
Example sendMessage_hi_42 :
  exists st st',
    [/\ @run utc 7 initial
          [:: EffectRun ex_token; WsOpen 0; ex_directory; Selected 0; Typed (js " hi ")]
        = Some st,
        sendMessage 7 st = Ok st',
        wire st' = [:: (0, mkMessageData 7 (Some (JNum 42)) (js "hi"))]
      & newMessage st' = [::]].
Proof.
by do 2!eexists; split; [vm_compute; reflexivity|vm_compute; reflexivity|vm_compute|vm_compute].
Qed.

(** C3 as stated fails when [wsRef] holds a socket that has closed: the
    guard only tests that a socket object exists, [send] on a closed
    socket returns normally, and the draft is cleared although nothing
    is transmitted.  First after the server closes the only socket;
    then in a run where the indicator shows a connection (a new token
    replaced the effect, the reconnect of the replaced socket took over
    [wsRef] and closed, the socket of the new token opened). *)
Lemma sendMessage_closed_socket_clears_draft :
  (exists st st',
      [/\ @run utc 7 initial
            [:: EffectRun ex_token; WsOpen 0; ex_directory; Selected 0;
                Typed (js "hi"); WsClose 0]
          = Some st,
          wsRef st = Some 0 /\ readyState st 0 = CLOSED,
          sendMessage 7 st = Ok st' /\ st' <> st
        & newMessage st' = [::] /\ wire st' = [::]])
  /\ (exists st st',
         [/\ @run utc 7 initial
               [:: EffectRun ex_token; WsOpen 0; ex_directory; Selected 0;
                   EffectCleanup; EffectRun ex_token'; WsClose 0; TimerFires;
                   WsOpen 2; WsClose 2; WsOpen 1; Typed (js "hi")]
             = Some st,
             isConnected st /\ wsRef st = Some 2 /\ readyState st 2 = CLOSED,
             sendMessage 7 st = Ok st' /\ st' <> st
           & newMessage st' = [::] /\ wire st' = [::]]).
Proof.
split.
- by do 2!eexists; split;
     [vm_compute; reflexivity|vm_compute
     |split; [vm_compute; reflexivity|vm_compute]|vm_compute].
- by do 2!eexists; split;
     [vm_compute; reflexivity|vm_compute
     |split; [vm_compute; reflexivity|vm_compute]|vm_compute].
Qed.

(* ------------------------------------------------------------------ *)
(** ** Connections *)

Section Connections.
Context {P : Platform}.
Variable cur : Z.

Lemma sendMessage_frame st st' :
  sendMessage cur st = Ok st' ->
  [/\ sockets st' = sockets st, timers st' = timers st, users st' = users st
    & selectedUser st' = selectedUser st].
Proof.
rewrite /sendMessage; case: (trim _) => [|c r]; first by case=> <-.
case: (truthy _) => /=; last by case=> <-.
case: (wsRef st) => [h|]; last by case=> <-.
case: (getProp _ _) => //= x; rewrite /ws_send.
by case: (readyState st h) => /= -[<-].
Qed.

Lemma onmessage_frame st data st' :
  onmessage st data = Ok st' ->
  [/\ sockets st' = sockets st, timers st' = timers st, users st' = users st
    & selectedUser st' = selectedUser st].
Proof.
rewrite /onmessage; case: (JSON_parse data) => [v|]; last by case=> <-.
by case: (ingest _ _) => //= next [<-].
Qed.

Lemma nonClosed_set st h r :
  nonClosed (set_readyState st h r)
  = nonClosed st + (r != CLOSED) - (readyState st h != CLOSED).
Proof. by rewrite /nonClosed /= count_set_nthF. Qed.

Lemma nonClosed_pos st h :
  h < size (sockets st) -> readyState st h != CLOSED -> 0 < nonClosed st.
Proof.
move=> hs nc; rewrite /nonClosed -has_count; apply/hasP.
by exists (nth noSocket (sockets st) h) => //; apply: mem_nth.
Qed.

Lemma nonClosed_connect token st :
  nonClosed (connectWebSocket token st) <= (nonClosed st).+1
  /\ timers (connectWebSocket token st) = timers st.
Proof.
rewrite /connectWebSocket; case: ifP => _ //=.
by rewrite /nonClosed /= -cats1 count_cat /= addn1.
Qed.

(** Between the owner's events a socket that has not closed and a
    pending reconnect exclude each other, and there is at most one of
    either. *)
Lemma step_one_connection st e st' :
  ~~ ownerEvent e -> step cur st e = Some st' ->
  nonClosed st + size (timers st) <= 1 -> nonClosed st' + size (timers st') <= 1.
Proof.
case: e => //= [h|h|h|h data||s|i||r] _.
- case: ifP => // /eqP cn [<-] inv.
  rewrite /nonClosed /= -/(nonClosed (set_readyState st h OPEN)).
  by rewrite nonClosed_set cn /= addnK.
- case: ifP => // /andP[hs nc] [<-] inv.
  rewrite /nonClosed /= -/(nonClosed (set_readyState st h CLOSED)) nonClosed_set.
  rewrite nc /= addn0 subn1 size_rcons addnS -addSn prednK //.
  exact: nonClosed_pos hs nc.
- by case: ifP => // _ [<-].
- case: ifP => // _; case e: (onmessage st data) => [st1|] // [<-].
  by case: (onmessage_frame e); rewrite /nonClosed => -> ->.
- case e: (timers st) => [|token rest] // [<-]; rewrite /= addnS ltnS leqn0 addn_eq0.
  case/andP=> /eqP n0 /eqP /size0nil ->.
  have [] := nonClosed_connect token (set_timers st [::]).
  by rewrite {2}/nonClosed /= -/(nonClosed st) n0 => le1 ->; rewrite addn0.
- by case=> <-.
- by case: ifP => // _ [<-].
- case e: (sendMessage cur st) => [st1|] // [<-].
  by case: (sendMessage_frame e); rewrite /nonClosed => -> ->.
- case=> <-; case: r => // -[] // [d|] //=.
  by case: (data_filter cur d).
Qed.

Lemma run_one_connection st es st' :
  ~~ has ownerEvent es -> run cur st es = Some st' ->
  nonClosed st + size (timers st) <= 1 -> nonClosed st' + size (timers st') <= 1.
Proof.
elim: es st => [|e es IH] st /=; first by move=> _ [<-].
rewrite negb_or => /andP[ne nes]; case e1: (step cur st e) => [st1|] // r1 inv.
exact: (IH st1 nes r1 (step_one_connection ne e1 inv)).
Qed.

(** C2 (as the code has it).  From the first run of the effect until the
    owner's next event (the cleanup, or a new run of the effect), in
    every state reached the sockets that have not closed and the pending
    reconnect timers number at most one together: at most one socket has
    not closed, and no reconnect is pending while there is one. *)
Theorem one_connection_per_effect (token : JsString) (es : seq Event) (st : ChatState) :
  ~~ has ownerEvent es -> run cur initial (EffectRun token :: es) = Some st ->
  nonClosed st + size (timers st) <= 1 /\ nonClosed st <= 1.
Proof.
move=> nes /= r.
have inv : nonClosed st + size (timers st) <= 1.
  apply: (run_one_connection nes r).
  by have [] := nonClosed_connect token initial => le1 ->; rewrite addn0.
by split=> //; apply: leq_trans inv; apply: leq_addr.
Qed.






End Connections.

Lemma one_connection_per_effect_witness :
  ~~ has ownerEvent [:: WsOpen 0; WsClose 0; TimerFires; WsOpen 1]
  /\ exists st,
       @run utc 7 initial
         (EffectRun ex_token :: [:: WsOpen 0; WsClose 0; TimerFires; WsOpen 1])
       = Some st
       /\ nonClosed st + size (timers st) <= 1 /\ nonClosed st <= 1.
Proof.
split; first by [].
eexists; split; first by vm_compute; reflexivity.
by apply: (@one_connection_per_effect utc 7 ex_token
             [:: WsOpen 0; WsClose 0; TimerFires; WsOpen 1]); vm_compute.
Defined.

(** C2 as stated fails.  [connectWebSocket] has no guard: called while
    an attempt is outstanding it constructs a second socket.  And when
    the effect is run again after its cleanup (a new token, or the
    second mount of strict mode), the [close()] of the cleanup makes the
    replaced socket schedule a reconnect, which constructs a third
    socket, under the old token, beside the open one. *)
Lemma second_connection_is_created :
  sockets (@connectWebSocket utc ex_token (@connectWebSocket utc ex_token initial))
  = [:: (CONNECTING, ex_token); (CONNECTING, ex_token)]
  /\ exists st,
       [/\ @run utc 7 initial
             [:: EffectRun ex_token; EffectCleanup; EffectRun ex_token'; WsClose 0;
                 WsOpen 1; TimerFires]
           = Some st,
           sockets st = [:: (CLOSED, ex_token); (OPEN, ex_token'); (CONNECTING, ex_token)]
         & nonClosed st = 2].
Proof. by split; [|eexists; split; [vm_compute; reflexivity|vm_compute|vm_compute]]. Qed.

(** C1 on the code.  After the cleanup has called [close()] on the open
    socket, the socket's [close] event runs [onclose], which schedules
    the reconnect, and the timer constructs a new socket.  Likewise when
    the cleanup runs while a reconnect is already pending: [close()] on
    the closed socket does nothing and the timer still fires. *)
Theorem cleanup_does_not_cancel_reconnect :
  (exists st,
      [/\ @run utc 7 initial [:: EffectRun ex_token; WsOpen 0; EffectCleanup] = Some st,
          sockets st = [:: (CLOSING, ex_token)] & timers st = [::]]
      /\ exists st',
           [/\ @run utc 7 st [:: WsClose 0; TimerFires] = Some st',
               sockets st' = [:: (CLOSED, ex_token); (CONNECTING, ex_token)]
             & wsRef st' = Some 1])
  /\ (exists st,
         [/\ @run utc 7 initial [:: EffectRun ex_token; WsOpen 0; WsClose 0; EffectCleanup]
             = Some st,
             sockets st = [:: (CLOSED, ex_token)] & timers st = [:: ex_token]]
         /\ exists st',
              [/\ @run utc 7 st [:: TimerFires] = Some st',
                  sockets st' = [:: (CLOSED, ex_token); (CONNECTING, ex_token)]
                & wsRef st' = Some 1]).
Proof.
split.
- eexists; split; first by split; [vm_compute; reflexivity|vm_compute|vm_compute].
  by eexists; split; [vm_compute; reflexivity|vm_compute|vm_compute].
- eexists; split; first by split; [vm_compute; reflexivity|vm_compute|vm_compute].
  by eexists; split; [vm_compute; reflexivity|vm_compute|vm_compute].
Qed.

Section Reconnect.
Context {P : Platform}.
Variable cur : Z.
Hypothesis accepts :
  forall token, WebSocket_accepts (WS_BASE ++ js "/messages/listen?token=" ++ token).

Lemma readyState_set st h r k :
  readyState (set_readyState st h r) k = if k == h then r else readyState st k.
Proof. by rewrite /readyState /= nth_set_nth /=; case: ifP. Qed.

Lemma size_set_readyState st h r :
  h < size (sockets st) -> size (sockets (set_readyState st h r)) = size (sockets st).
Proof. by move=> hs; rewrite /= size_set_nth; apply/maxn_idPr. Qed.

(** Whatever the state, when the cleanup closes a socket that is
    connecting or open and no other reconnect is pending, the socket's
    [close] event and the timer it starts lead to a new connecting
    socket in [wsRef]. *)
Lemma cleanup_close_reconnects st h :
  wsRef st = Some h -> h < size (sockets st) -> live (readyState st h) ->
  timers st = [::] ->
  exists st',
    [/\ run cur st [:: EffectCleanup; WsClose h; TimerFires] = Some st',
        wsRef st' = Some (size (sockets st))
      & readyState st' (size (sockets st)) = CONNECTING].
Proof.
move=> rh hs lv tm.
rewrite /= /cleanup rh /ws_close lv size_set_readyState // hs readyState_set eqxx /=.
rewrite tm /= /connectWebSocket accepts /=.
have sz : maxn h.+1 (maxn h.+1 (size (sockets st))) = size (sockets st).
  by rewrite maxnA maxnn; apply/maxn_idPr.
eexists; split; first by reflexivity.
  by rewrite /= !size_set_nth sz.
by rewrite /readyState /= nth_rcons !size_set_nth sz ltnn eqxx.
Qed.

(** The same when the cleanup finds the socket closed and its reconnect
    pending: [close()] changes nothing and the timer fires. *)
Lemma cleanup_pending_reconnects st h token :
  wsRef st = Some h -> readyState st h = CLOSED -> timers st = [:: token] ->
  exists st',
    [/\ run cur st [:: EffectCleanup; TimerFires] = Some st',
        wsRef st' = Some (size (sockets st))
      & readyState st' (size (sockets st)) = CONNECTING].
Proof.
move=> rh cl tm; rewrite /= /cleanup rh /ws_close cl /= tm /connectWebSocket accepts.
eexists; split; first by reflexivity.
  by [].
by rewrite /readyState /= nth_rcons ltnn eqxx.
Qed.

End Reconnect.

(* ------------------------------------------------------------------ *)
(** ** Profile look-ups *)

(** C7 (as the code has it).  [fetchUserDetails] issues no request when
    the map it reads holds a truthy entry for the id; otherwise every
    call issues one request of its own, whatever is already on the
    network.  A successful response stores the profile under the id; a
    failed one leaves the map as it was, so the id can be asked again. *)
Theorem fetchUserDetails_cache_check (seen : ProfileMap) (userId : Z) (d : Directory) :
  [/\ truthy (obj_get seen userId) -> fetchUserDetails seen userId d = d,
      ~~ truthy (obj_get seen userId) ->
        fetchUserDetails seen userId d
        = mkDirectory (dir_users d) (rcons (dir_pending d) userId),
      forall user,
        obj_get (dir_users (fetchUserDetails_settled userId (ProfileHttp true (Some user)) d))
                userId = Some user
    & forall ok,
        dir_users (fetchUserDetails_settled userId ProfileNetworkError d) = dir_users d
        /\ dir_users (fetchUserDetails_settled userId (ProfileHttp false ok) d) = dir_users d
        /\ dir_users (fetchUserDetails_settled userId (ProfileHttp true None) d) = dir_users d].
Proof.
split.
- by rewrite /fetchUserDetails => ->.
- by rewrite /fetchUserDetails => /negPf ->.
- by move=> user /=; rewrite eqxx.
- by [].
Qed.

(** C7 as stated fails: two calls for id 7 before the first request
    settles put two requests for 7 on the network. *)
Lemma concurrent_resolve_fetches_twice :
  let d0 := mkDirectory [::] [::] in
  let d1 := fetchUserDetails (dir_users d0) 7 d0 in
  let d2 := fetchUserDetails (dir_users d1) 7 d1 in
  dir_pending d1 = [:: 7%Z] /\ dir_pending d2 = [:: 7%Z; 7%Z]
  /\ count_mem 7%Z (dir_pending d2) = 2.
Proof. by []. Qed.

(* ------------------------------------------------------------------ *)
(** ** Further definitions at work *)

Example split_examples :
  [/\ split 46 (js "a.b.c") = [:: js "a"; js "b"; js "c"],
      split 46 (js "abc") = [:: js "abc"],
      split 46 [::] = [:: [::]]
    & at_index (split 46 (js "abc")) 1 = None].
Proof. by []. Qed.

Example renderStars_3 :
  map star_className (renderStars 3 (js "lg"))
  = [:: js "w-6 h-6 text-yellow-400"; js "w-6 h-6 text-yellow-400";
        js "w-6 h-6 text-yellow-400"; js "w-6 h-6 text-gray-300";
        js "w-6 h-6 text-gray-300"].
Proof. by []. Qed.

(** A token whose payload decodes to [{}]: the session is kept and
    [fetchUser] is called with [undefined]. *)
Example authEffect_empty_payload :
  @authEffect utc (authInitial (Some (js "h.e30=.s")))
  = mkAuth JNull (Some (js "h.e30=.s")) false (Some (js "h.e30=.s")) [:: SubValue None].
Proof. by []. Qed.

Example getStatusBadge_examples :
  [/\ getStatusBadge (js "accepted")
      = (js "status-badge status-accepted", Some (js "Zaakceptowana")),
      getStatusBadge (js "withdrawn")
      = (js "status-badge status-pending", Some (js "withdrawn"))
    & getStatusBadge (js "constructor") = (js "status-badge undefined", None)].
Proof. by []. Qed.

Example filterOrders_examples :
  filterOrders asciiLower ex_orders (js "  ") = Ok ex_orders
  /\ filterOrders asciiLower ex_orders (js "LAP") = Ok (take 2 ex_orders)
  /\ filterOrders asciiLower [:: JObj [::]] (js "x") = Throw.
Proof. by []. Qed.

(* ------------------------------------------------------------------ *)
(** ** The connection indicator *)

Section Indicator.
Context {P : Platform}.
Variable cur : Z.

Lemma sendMessage_conn st st' :
  sendMessage cur st = Ok st' ->
  [/\ sockets st' = sockets st, timers st' = timers st, wsRef st' = wsRef st
    & isConnected st' = isConnected st].
Proof.
rewrite /sendMessage; case: (trim _) => [|c r]; first by case=> <-.
case: (truthy _) => /=; last by case=> <-.
case e: (wsRef st) => [h|]; last by case=> <-.
case: (getProp _ _) => //= x; rewrite /ws_send.
by case: (readyState st h) => /= -[<-].
Qed.

Lemma onmessage_conn st data st' :
  onmessage st data = Ok st' ->
  [/\ sockets st' = sockets st, timers st' = timers st, wsRef st' = wsRef st
    & isConnected st' = isConnected st].
Proof.
rewrite /onmessage; case: (JSON_parse data) => [v|]; last by case=> <-.
by case: (ingest _ _) => //= next [<-].
Qed.

Lemma fetchUsers_conn st r :
  [/\ sockets (fetchUsers cur st r) = sockets st,
      timers (fetchUsers cur st r) = timers st,
      wsRef (fetchUsers cur st r) = wsRef st
    & isConnected (fetchUsers cur st r) = isConnected st].
Proof. by case: r => // -[] // [d|] //=; case: (data_filter cur d). Qed.

Lemma linked_frame st st' :
  sockets st' = sockets st -> timers st' = timers st -> wsRef st' = wsRef st ->
  isConnected st' = isConnected st -> linked st -> linked st'.
Proof.
by rewrite /linked /nonClosed /readyState => -> -> -> ->.
Qed.

Lemma open_in_range st h : readyState st h != CLOSED -> h < size (sockets st).
Proof.
by rewrite /readyState ltnNge; apply: contraNN => le; rewrite nth_default.
Qed.

Lemma linked_connect token st :
  nonClosed st = 0 -> isConnected st = false -> timers st = [::] ->
  linked (connectWebSocket token st).
Proof.
move=> n0 nc tm; rewrite /connectWebSocket; case: ifP => _.
- split=> /=; rewrite ?nc ?tm //.
  + by rewrite /nonClosed /= -cats1 count_cat /= -/(nonClosed st) n0.
  + move=> h; rewrite size_rcons ltnS leq_eqVlt => /orP[/eqP -> //|hs].
    rewrite /readyState /= nth_rcons hs => no.
    have := nonClosed_pos hs no; by rewrite n0.
- split; rewrite ?nc ?n0 ?tm //.
  by move=> h hs no; have := nonClosed_pos hs no; rewrite n0.
Qed.

Lemma readyState_sockets st st' k :
  sockets st' = sockets st -> readyState st' k = readyState st k.
Proof. by rewrite /readyState => ->. Qed.

Lemma step_linked st e st' :
  ~~ ownerEvent e -> step cur st e = Some st' -> linked st -> linked st'.
Proof.
move=> ne e1 inv; have cnt := step_one_connection ne e1 (let: And3 c _ _ := inv in c).
case: e ne e1 => //= [h|h|h|h data||s|i||r] _.
- case: ifP => // /eqP cn [e']; move: cnt; rewrite -{}e' => cnt.
  have hs : h < size (sockets st) by apply: open_in_range; rewrite cn.
  case: inv => _ J K; split=> //=.
  + move=> k; rewrite (@readyState_sockets (set_readyState st h OPEN)) //.
    rewrite readyState_set size_set_nth (maxn_idPr hs).
    by move=> ks; case: (k =P h) => [-> _|_]; [apply: J; rewrite ?cn|apply: J].
  + move=> _; exists h; first by apply: J; rewrite ?cn.
    by rewrite (@readyState_sockets (set_readyState st h OPEN)) // readyState_set eqxx.
- case: ifP => // /andP[hs nc] [e']; move: cnt; rewrite -{}e' => cnt.
  case: inv => _ J K; split=> //= k.
  rewrite (@readyState_sockets (set_readyState st h CLOSED)) //.
  rewrite readyState_set size_set_nth (maxn_idPr hs).
  by move=> ks; case: (k =P h) => // _; apply: J.
- case: ifP => // _ [e']; move: cnt; rewrite -{}e' => cnt.
  by case: inv => _ J K; split.
- case: ifP => // _; case e: (onmessage st data) => [st1|] // [<-].
  by case: (onmessage_conn e) => *; apply: linked_frame inv.
- case e: (timers st) => [|token rest] // [<-].
  case: inv => c J K; move: c; rewrite e /= addnS ltnS leqn0 addn_eq0.
  case/andP=> /eqP n0 /eqP /size0nil r0.
  apply: linked_connect; rewrite ?r0 //=.
  apply/negP => /K [k rk op]; have := @nonClosed_pos st k.
  have nc : readyState st k != CLOSED by case/orP: op => /eqP ->.
  by rewrite n0 => /(_ (open_in_range nc) nc).
- by case=> <-; apply: linked_frame inv.
- by case: ifP => // _ [<-]; apply: linked_frame inv.
- case e: (sendMessage cur st) => [st1|] // [<-].
  by case: (sendMessage_conn e) => *; apply: linked_frame inv.
- by case=> <-; case: (fetchUsers_conn st r) => *; apply: linked_frame inv.
Qed.

Lemma occur_linked st o st' :
  ~~ ownerOccurrence o -> occur cur st o = Some st' -> linked st -> linked st'.
Proof.
case: o => [e|h] /=; first exact: step_linked.
move=> _; case: ifP => // /eqP op [<-] [c J K].
have hs : h < size (sockets st) by apply: open_in_range; rewrite op.
split=> /=.
- by rewrite -/(nonClosed (set_readyState st h CLOSING)) nonClosed_set op /= addnK.
- move=> k; rewrite -/(readyState (set_readyState st h CLOSING) k) readyState_set.
  rewrite size_set_nth (maxn_idPr hs) => ks.
  by case: (k =P h) => [-> _|_]; [apply: J; rewrite ?op|apply: J].
- move=> /K [k rk live]; exists k => //.
  rewrite -/(readyState (set_readyState st h CLOSING) k) readyState_set.
  by case: (k =P h).
Qed.

Lemma occurAll_linked st os st' :
  ~~ has ownerOccurrence os -> occurAll cur st os = Some st' -> linked st -> linked st'.
Proof.
elim: os st => [|o os IH] st /=; first by move=> _ [<-].
rewrite negb_or => /andP[no nos]; case e1: (occur cur st o) => [st1|] // r1 inv.
exact: (IH st1 nos r1 (occur_linked no e1 inv)).
Qed.

Lemma linked_first token : linked (connectWebSocket token initial).
Proof. exact: linked_connect. Qed.

Lemma sendMessage_closing st h :
  wsRef st = Some h -> readyState st h = CLOSING -> truthy (Some (selectedUser st)) ->
  trim (newMessage st) <> [::] ->
  sendMessage cur st = Ok (setNewMessage st [::]).
Proof.
rewrite /sendMessage /ws_send => -> -> tr.
have [r ->] := truthy_getProp (js "user_id") tr; rewrite tr /=.
by case: (trim (newMessage st)).
Qed.

(** X1.  The indicator between the owner's events.  From the first run
    of the effect until the cleanup or a new run, whatever the sockets,
    the timers, the user and the directory do, whenever [isConnected]
    is set the socket in [wsRef] has not closed: it is open, or the
    peer has started to close it and its [close] event is still to
    come; and no other socket is alive and no reconnect is pending. *)
Theorem connected_means_open (token : JsString) (os : seq Occurrence) (st : ChatState) :
  ~~ has ownerOccurrence os ->
  occurAll cur initial (Handled (EffectRun token) :: os) = Some st ->
  isConnected st ->
  exists h,
    [/\ wsRef st = Some h,
        (readyState st h == OPEN) || (readyState st h == CLOSING),
        forall k, k < size (sockets st) -> k != h -> readyState st k = CLOSED
      & timers st = [::]].
Proof.
move=> nos /= r ic.
have [c J /(_ ic) [h rh live]] := occurAll_linked nos r (linked_first token).
have nc : readyState st h != CLOSED by case/orP: live => /eqP ->.
exists h; split=> //.
- move=> k ks kh; apply/eqP/negPn/negP => /(J _ ks); rewrite rh => -[e].
  by rewrite e eqxx in kh.
- have := nonClosed_pos (open_in_range nc) nc; move: c.
  by case: (nonClosed st) => // n; rewrite addSn ltnS leqn0 addn_eq0 => /andP[_ /eqP/size0nil].
Qed.

(** X2.  An enabled send button.  Between the owner's events, when a
    correspondent is selected (the form is shown) and the button is not
    disabled, submitting returns and clears the draft; if the socket in
    [wsRef] is open exactly the trimmed draft goes on its wire, and
    otherwise that socket is closing and the frame is dropped. *)
Theorem enabled_submit_sends (token : JsString) (os : seq Occurrence) (st : ChatState) :
  ~~ has ownerOccurrence os ->
  occurAll cur initial (Handled (EffectRun token) :: os) = Some st ->
  formShown st -> ~~ submitDisabled st ->
  exists2 h, wsRef st = Some h
           & (readyState st h = OPEN /\ step cur st Submit = Some (sent cur st h))
             \/ (readyState st h = CLOSING
                 /\ step cur st Submit = Some (setNewMessage st [::])).
Proof.
move=> nos /= r shown; rewrite /submitDisabled negb_or negbK => /andP[/eqP nt ic].
have [_ _ /(_ ic) [h rh live]] := occurAll_linked nos r (linked_first token).
exists h => //; case/orP: live => /eqP st_h; [left|right]; split=> //=.
  by rewrite (sendMessage_open cur rh st_h shown nt).
by rewrite (sendMessage_closing rh st_h shown nt).
Qed.

End Indicator.

Lemma connected_means_open_witness :
  let os := [:: Handled (WsOpen 0); Handled (WsMessage 0 (js "{}")); ClosingStarts 0] in
  ~~ has ownerOccurrence os
  /\ exists st,
       [/\ @occurAll utc 7 initial (Handled (EffectRun ex_token) :: os) = Some st,
           isConnected st
         & exists h,
             [/\ wsRef st = Some h,
                 (readyState st h == OPEN) || (readyState st h == CLOSING),
                 forall k, k < size (sockets st) -> k != h -> readyState st k = CLOSED
               & timers st = [::]]].
Proof.
split; first by [].
eexists; split; first by vm_compute; reflexivity.
  by vm_compute.
by apply: (@connected_means_open utc 7 ex_token
             [:: Handled (WsOpen 0); Handled (WsMessage 0 (js "{}")); ClosingStarts 0]);
   vm_compute.
Defined.

Lemma enabled_submit_sends_witness :
  let os := [:: Handled (WsOpen 0); Handled ex_directory; Handled (Selected 0);
                Handled (Typed (js " hi "))] in
  ~~ has ownerOccurrence os
  /\ exists st,
       [/\ @occurAll utc 7 initial (Handled (EffectRun ex_token) :: os) = Some st,
           formShown st, ~~ submitDisabled st
         & exists2 h, wsRef st = Some h
                    & (readyState st h = OPEN
                       /\ @step utc 7 st Submit = Some (sent 7 st h))
                      \/ (readyState st h = CLOSING
                          /\ @step utc 7 st Submit = Some (setNewMessage st [::]))].
Proof.
split; first by [].
eexists; split; first by vm_compute; reflexivity.
- by vm_compute.
- by vm_compute.
- by apply: (@enabled_submit_sends utc 7 ex_token
               [:: Handled (WsOpen 0); Handled ex_directory; Handled (Selected 0);
                   Handled (Typed (js " hi "))]); vm_compute.
Defined.

(* ------------------------------------------------------------------ *)
(** ** Conversations *)

Lemma Array_filter_In f (s r : seq JsValue) m :
  Array_filter f s = Ok r -> List.In m r -> f m = Ok true /\ List.In m s.
Proof.
elim: s r => [|x s IH] r /=; first by case=> <-.
case e: (f x) => [b|] //=; case e2: (Array_filter f s) => [rest|] //= [<-].
case: b e => e /=; last by case/(IH _ e2) => fm ms; split=> //; right.
case=> [<-|/(IH _ e2) [fm ms]]; first by split=> //; left.
by split=> //; right.
Qed.

Lemma withUserE cur u msg :
  withUser cur u msg = Ok true ->
  exists s r,
    [/\ getProp msg (js "sender_id") = Ok (Some (JNum s)),
        getProp msg (js "receiver_id") = Ok (Some (JNum r))
      & (s == cur) && (r == u) || (s == u) && (r == cur)].
Proof.
rewrite /withUser; case: msg => //= o.
case: (lookup _ o) => [[|b|s|x|a|o']|] //=.
case: (lookup _ o) => [[|b'|r|x'|a'|o'']|] //=; rewrite ?andbF //.
by case=> h; exists s, r.
Qed.

Lemma withUser_one cur u u' msg :
  withUser cur u msg = Ok true -> withUser cur u' msg = Ok true -> u = u'.
Proof.
move=> /withUserE [s [r [es er h1]]] /withUserE [s' [r' [es' er' h2]]].
move: es' er' h2; rewrite es er => -[<-] [<-] h2.
by case/orP: h1 h2 => /andP[/eqP e1 /eqP e2] /orP[] /andP[/eqP e3 /eqP e4]; congruence.
Qed.

(** X3.  Conversations do not overlap: a message listed under one
    correspondent is listed under no other.  (A message that involves
    neither the current user nor the correspondent is listed nowhere.) *)
Theorem conversations_disjoint (cur u u' : Z) (messages s s' : seq JsValue) (m : JsValue) :
  getMessagesWithUser cur messages u = Ok s ->
  getMessagesWithUser cur messages u' = Ok s' ->
  List.In m s -> List.In m s' -> u = u'.
Proof.
move=> /Array_filter_In f1 /Array_filter_In f2 /f1 [w1 _] /f2 [w2 _].
exact: withUser_one w1 w2.
Qed.

Lemma conversations_disjoint_witness :
  let store := [:: toJs ex_yesterday_2350; toJs ex_today_1000; toJs ex_today_1005] in
  [/\ @getMessagesWithUser 7 store 42 = Ok store,
      @getMessagesWithUser 7 store 42 = Ok store,
      List.In (toJs ex_today_1000) store
    & 42%Z = 42%Z].
Proof.
split; [by []|by []|by right; left|].
apply: (@conversations_disjoint 7 42 42
          [:: toJs ex_yesterday_2350; toJs ex_today_1000; toJs ex_today_1005]
          [:: toJs ex_yesterday_2350; toJs ex_today_1000; toJs ex_today_1005]
          [:: toJs ex_yesterday_2350; toJs ex_today_1000; toJs ex_today_1005]
          (toJs ex_today_1000)) => //; by right; left.
Defined.

(** X4.  The side of a bubble tells who wrote it: in the conversation with
    [u] a bubble on the right was sent by the current user to [u], and a
    bubble on the left was sent by [u], who is then another user, to the
    current user. *)
Theorem bubble_sides (cur u : Z) (msg : JsValue) :
  withUser cur u msg = Ok true ->
  [/\ bubbleSide cur msg = Ok (js "justify-end"),
      getProp msg (js "sender_id") = Ok (Some (JNum cur))
    & getProp msg (js "receiver_id") = Ok (Some (JNum u))]
  \/ [/\ bubbleSide cur msg = Ok (js "justify-start"),
         getProp msg (js "sender_id") = Ok (Some (JNum u)),
         getProp msg (js "receiver_id") = Ok (Some (JNum cur))
       & u <> cur].
Proof.
move=> /withUserE [s [r [es er h]]]; rewrite /bubbleSide es er /=.
case: (s =P cur) h => [->|ns] /=.
  by case/orP=> [/eqP ->|/andP[/eqP <- /eqP ->]]; left.
by case/andP=> /eqP e1 /eqP e2; right; split; rewrite ?e1 ?e2 // => e; apply: ns; rewrite e1.
Qed.

Lemma bubble_sides_witness :
  withUser 7 42 (toJs ex_today_1005) = Ok true
  /\ bubbleSide 7 (toJs ex_today_1005) = Ok (js "justify-start").
Proof.
split; first by [].
by case: (@bubble_sides 7 42 (toJs ex_today_1005) erefl) => [[]|[]].
Defined.

(* ------------------------------------------------------------------ *)
(** ** Exceptions of the message array *)

Section NullFrames.
Context {P : Platform}.

Lemma getProp_notNull v k : ~~ isNull v -> exists r, getProp v k = Ok r.
Proof. by case: v => //=; eexists. Qed.

Lemma getProp_null v k : isNull v -> getProp v k = Throw.
Proof. by case: v. Qed.

Lemma some_same_id_ok prev message :
  ~~ has isNull prev -> ~~ isNull message -> exists b, some_same_id prev message = Ok b.
Proof.
move=> np nm; elim: prev np => [|m prev IH] /=; first by exists false.
rewrite negb_or => /andP[nn /IH [b e]].
have [x ->] := getProp_notNull (js "message_id") nn.
have [y ->] := getProp_notNull (js "message_id") nm.
by rewrite /= e; case: (strict_eq x y); [exists true|exists b].
Qed.

Lemma plain_notNull s : all plainFrame s -> ~~ has isNull s.
Proof. by rewrite -all_predC; apply: sub_all => -[]. Qed.

Lemma ingest_plain prev message :
  all plainFrame prev -> plainFrame message ->
  exists2 next, ingest prev message = Ok next & all plainFrame next.
Proof.
move=> pp pm; have np := plain_notNull pp.
have nm : ~~ isNull message by case: message pm.
rewrite /ingest; have [b ->] := some_same_id_ok np nm.
case: b => /=; first by exists prev.
have nr : ~~ has isNull (rcons prev message) by rewrite has_rcons negb_or nm.
rewrite /Array_sort (negPf nr) andbF; exists (sort sortLe (rcons prev message)) => //.
by rewrite all_sort all_rcons pm.
Qed.

Lemma ingestAll_plain prev frames :
  all plainFrame prev -> all plainFrame frames ->
  exists2 s, ingestAll prev frames = Ok s & all plainFrame s.
Proof.
elim: frames prev => [|f frames IH] prev pp /=; first by exists prev.
by case/andP=> pf pfs; have [next -> pn] := ingest_plain pp pf; apply: IH.
Qed.

Lemma withUser_ok cur u msg : ~~ isNull msg -> exists b, withUser cur u msg = Ok b.
Proof.
move=> nm; rewrite /withUser.
have [s ->] := getProp_notNull (js "sender_id") nm.
by have [r ->] := getProp_notNull (js "receiver_id") nm; eexists.
Qed.

Lemma getMessagesWithUser_plain cur u s :
  all plainFrame s ->
  exists2 p, getMessagesWithUser cur s u = Ok p & all plainFrame p.
Proof.
rewrite /getMessagesWithUser; elim: s => [|x s IH] /=; first by exists [::].
case/andP=> px /IH [p -> pp].
have nx : ~~ isNull x by case: x px.
have [b ->] := withUser_ok cur u nx.
by case: b => /=; [exists (x :: p)|exists p] => //=; rewrite px.
Qed.

Lemma renderStep_ok now p a index :
  ~~ has isNull p -> index < size p -> exists a', renderStep now p (Ok a) index = Ok a'.
Proof.
rewrite -all_predC => /(all_nthP JNull) np lt; rewrite /renderStep /=.
have [d ->] := getProp_notNull (js "sent_at") (np _ lt) => /=.
case: index lt => [|i] lt /=; first by eexists.
have [d' ->] := getProp_notNull (js "sent_at") (np _ (ltnW lt)).
by eexists.
Qed.

Local Arguments renderStep : simpl never.

Lemma render_ok_from now p n i a :
  ~~ has isNull p -> i + n <= size p ->
  exists c, foldl (renderStep now p) (Ok a) (iota i n) = Ok c.
Proof.
move=> np; elim: n i a => [|n IH] i a le /=; first by exists a.
have lt : i < size p by apply: leq_trans le; rewrite addnS ltnS leq_addr.
have [a' ->] := renderStep_ok now a np lt.
by apply: IH; rewrite addSnnS.
Qed.

Lemma renderMessages_ok now p :
  ~~ has isNull p -> exists c, renderMessages now p = Ok c.
Proof. by move=> np; apply: render_ok_from. Qed.

(** X5.  Frames with plain fields raise nothing: after any run of parsed
    frames none of which is [null] or carries an object or an array as
    its [message_id], [content] or [sent_at], the updater has returned
    every time and the array holds only such frames; for every
    correspondent the projection returns, lists only such frames, and the
    [reduce] that builds its column returns. *)
Theorem plain_frames_raise_nothing (cur u now : Z) (frames : seq JsValue) :
  all plainFrame frames ->
  exists s p c,
    [/\ ingestAll [::] frames = Ok s, all plainFrame s,
        getMessagesWithUser cur s u = Ok p, all plainFrame p
      & renderMessages now p = Ok c].
Proof.
move=> pf; have [s es ps] := @ingestAll_plain [::] frames isT pf.
have [p ep pp] := getMessagesWithUser_plain cur u ps.
by have [c ec] := renderMessages_ok now (plain_notNull pp); exists s, p, c.
Qed.

Lemma some_same_id_null prev message :
  has isNull prev ->
  some_same_id prev message = Throw \/ some_same_id prev message = Ok true.
Proof.
elim: prev => [|m prev IH] //=; case nm: (isNull m) => /=; [move=> _|move=> hn].
  by rewrite (getProp_null _ nm); left.
case: (getProp m _) => [x|] /=; last by left.
case: (getProp message _) => [y|] /=; last by left.
by case: (strict_eq x y); [right|apply: IH].
Qed.

Lemma Array_filter_null f s :
  (forall x, isNull x -> f x = Throw) -> has isNull s -> Array_filter f s = Throw.
Proof.
move=> fn; elim: s => [|x s IH] //=; case nx: (isNull x) => /=; [move=> _|move=> hn].
  by rewrite (fn _ nx).
by rewrite (IH hn); case: (f x).
Qed.

(** X6.  A [null] in the array is there for good: every projection raises,
    and the updater either raises or returns the array as it is,
    whatever the frame.  The only way in is a frame [null] while the
    array is empty; on a non-empty array the frame [null] makes the
    updater raise. *)
Theorem null_in_store_is_permanent (cur u : Z) (prev : seq JsValue) (message : JsValue) :
  [/\ has isNull prev -> getMessagesWithUser cur prev u = Throw,
      has isNull prev -> ingest prev message = Throw \/ ingest prev message = Ok prev
    & ingest prev JNull = if prev is [::] then Ok [:: JNull] else Throw].
Proof.
split=> [hn|hn|].
- apply: Array_filter_null hn => x nx.
  by rewrite /withUser (getProp_null _ nx).
- by rewrite /ingest; case: (some_same_id_null message hn) => ->; [left|right].
- case: prev => [|m prev] //=; rewrite /ingest /=.
  by case: (getProp m _).
Qed.

End NullFrames.

Lemma plain_frames_raise_nothing_witness :
  let frames := [:: JObj [::]; JNum 3; toJs ex_unparsable; toJs ex_today_1000] in
  all plainFrame frames
  /\ exists s p c,
       [/\ @ingestAll utc [::] frames = Ok s, all plainFrame s,
           getMessagesWithUser 7 s 42 = Ok p, all plainFrame p
         & @renderMessages utc ex_now p = Ok c].
Proof.
split; first by [].
by apply: (@plain_frames_raise_nothing utc 7 42 ex_now
             [:: JObj [::]; JNum 3; toJs ex_unparsable; toJs ex_today_1000]).
Defined.

(* ------------------------------------------------------------------ *)
(** ** The user list *)

Section Preview.
Context {P : Platform}.

Lemma lastMessage_toJs (p : seq Message) :
  lastMessage (map toJs p) = if p is m :: r then Some (toJs (last m r)) else None.
Proof. by case: p => [|m r] //=; rewrite last_map. Qed.

Lemma preview_toJs cur (m : Message) (r : seq Message) :
  preview cur (map toJs (m :: r))
  = Ok (Some (if sender_id (last m r) == cur then js "Ty: " else [::],
              Some (JStr (content (last m r))))).
Proof. by rewrite /preview lastMessage_toJs. Qed.

Lemma sorted_last_max (p : seq Message) m r :
  all valid p -> sorted leM p -> p = m :: r ->
  forall x, x \in p -> (tval x <= tval (last m r))%Z.
Proof.
move=> vp sp ep x xp; have vx := allP vp _ xp.
have vl : valid (last m r) by apply: (allP vp); rewrite ep mem_last.
move: sp xp; rewrite (sorted_pairwise_in leM_trans vp) ep lastI pairwise_rcons.
case/andP=> /allP le _; rewrite mem_rcons inE => /orP[/eqP ->|/le]; first by lia.
by rewrite leM_valid // => /Z.leb_le.
Qed.

(** X7.  The line under a name in the user list shows the latest message of
    that conversation.  For every run of well-formed frames whose
    [sent_at] parse, the conversation with [u] consists of the accepted
    messages between the two users; when it is empty no line is shown,
    and otherwise the line shows the content of a message of the
    conversation than which none is later, preceded by "Ty: " exactly
    when the current user sent it. *)
Theorem preview_is_latest (cur u : Z) (ms : seq Message) :
  all valid ms ->
  exists proj : seq Message,
    [/\ getMessagesWithUser cur (map toJs (foldl ingestM [::] ms)) u = Ok (map toJs proj),
        forall x, (x \in proj) = (x \in accepted ms) && between cur u x,
        proj = [::] -> preview cur (map toJs proj) = Ok None
      & proj <> [::] ->
        exists m,
          [/\ m \in proj,
              preview cur (map toJs proj)
              = Ok (Some (if sender_id m == cur then js "Ty: " else [::],
                          Some (JStr (content m))))
            & forall x, x \in proj -> (tval x <= tval m)%Z]].
Proof.
move=> vms; pose store := foldl (@ingestM P) [::] ms.
pose proj := filter (between cur u) store.
have vs : all valid store by apply: valid_run.
have vp : all valid proj by apply/allP => x; rewrite mem_filter => /andP[_ /(allP vs)].
have sp : sorted leM proj.
  by apply: (sorted_filter_in leM_trans vs); apply: sorted_store.
exists proj; split; first exact: getMessagesWithUser_toJs.
- by move=> x; rewrite mem_filter andbC (perm_mem (store_perm ms).1).
- by move=> ->.
- case ep: proj => [|m r] // _; exists (last m r); split; first exact: mem_last.
    exact: preview_toJs.
  by rewrite -ep; apply: sorted_last_max vp sp ep.
Qed.

Lemma acceptM_sub (acc ms : seq Message) x :
  x \in foldl acceptM acc ms -> (x \in acc) || (x \in ms).
Proof.
elim: ms acc => [|m ms IH] acc /=; first by rewrite orbF.
move/IH; rewrite /acceptM inE; case: ifP => _.
  by case/orP=> [->|->] //; rewrite !orbT.
by rewrite mem_rcons inE orbCA orbA.
Qed.

Lemma accepted_sub (ms : seq Message) x : x \in accepted ms -> x \in ms.
Proof. by move/acceptM_sub. Qed.

(** X20.  No two bubbles share a key.  For every run of well-formed
    frames the array holds each [message_id] at most once, and so does
    the conversation with any correspondent, whose bubbles are keyed by
    [message_id]; every message of the conversation is an accepted
    message between the two users. *)
Theorem bubble_keys_unique (cur u : Z) (ms : seq Message) :
  exists store proj : seq Message,
    [/\ ingestAll [::] (map toJs ms) = Ok (map toJs store),
        getMessagesWithUser cur (map toJs store) u = Ok (map toJs proj),
        uniq (map message_id store), uniq (map message_id proj)
      & forall x, x \in proj -> [/\ x \in ms, between cur u x
                                  & count (sameId x) proj = 1]].
Proof.
pose store := foldl (@ingestM P) [::] ms.
pose proj := filter (between cur u) store.
have us : uniq (map message_id store) by apply: store_uniq_ids.
have up : uniq (map message_id proj).
  by apply: subseq_uniq us; apply: map_subseq; apply: filter_subseq.
have sub : {subset accepted ms <= ms} by move=> x /accepted_sub.
exists store, proj; split=> //; first exact: (ingestAll_toJs [::]).
  exact: getMessagesWithUser_toJs.
move=> x; rewrite mem_filter => /andP[bx xs]; split=> //.
  by apply: sub; rewrite -(perm_mem (store_perm ms).1).
have xp : x \in proj by rewrite mem_filter bx.
rewrite -(count_map message_id (pred1 (message_id x))) count_uniq_mem //.
by rewrite map_f.
Qed.

End Preview.

Lemma preview_is_latest_witness :
  let ms := [:: ex_today_1005; ex_yesterday_2350; ex_today_1000] in
  @all _ (@valid utc) ms
  /\ @preview 7 [:: toJs ex_yesterday_2350; toJs ex_today_1000; toJs ex_today_1005]
     = Ok (Some ([::], Some (JStr (js "second"))))
  /\ exists proj : seq Message,
       getMessagesWithUser 7 (map toJs (foldl (@ingestM utc) [::] ms)) 42
       = Ok (map toJs proj).
Proof.
split; first by vm_compute.
split; first by vm_compute.
have [proj [e _ _ _]] :=
  @preview_is_latest utc 7 42 [:: ex_today_1005; ex_yesterday_2350; ex_today_1000] isT.
by exists proj.
Defined.

(* ------------------------------------------------------------------ *)
(** ** Stars and reviews *)

(** X8.  [renderStars] always returns five stars with keys 1 to 5; the lit
    ones come first, and their number is the rating cut off at 0 and at
    5. *)
Theorem renderStars_lit (rating : Z) (size : JsString) :
  let k := Z.to_nat (Z.min 5 (Z.max 0 rating)) in
  map star_key (renderStars rating size) = [:: 1; 2; 3; 4; 5]%Z
  /\ map star_className (renderStars rating size)
     = nseq k (sizeClass size ++ js " text-yellow-400")
       ++ nseq (5 - k) (sizeClass size ++ js " text-gray-300").
Proof.
split=> //; rewrite /renderStars /star /=.
case: (Z.leb_spec 1 rating) => h1; last first.
  have -> : Z.min 5 (Z.max 0 rating) = 0%Z by lia.
  by do 4![case: Z.leb_spec => ?; first by lia].
case: (Z.leb_spec 2 rating) => h2; last first.
  have -> : rating = 1%Z by lia.
  by [].
case: (Z.leb_spec 3 rating) => h3; last first.
  have -> : rating = 2%Z by lia.
  by [].
case: (Z.leb_spec 4 rating) => h4; last first.
  have -> : rating = 3%Z by lia.
  by [].
case: (Z.leb_spec 5 rating) => h5; last first.
  have -> : rating = 4%Z by lia.
  by [].
by have -> : Z.min 5 (Z.max 0 rating) = 5%Z by lia.
Qed.

Section Reviews.

Let inRange (v : ProfileView) : bool :=
  (1 <=? nr_rating (newReview v))%Z && (nr_rating (newReview v) <=? 5)%Z.

Let postedFor (seen : seq Z) (b : ReviewBody) : bool :=
  wellFormedReview b && (rb_user_id b \in seen).

Lemma submitReview_posts seen v :
  inRange v -> userId v \in seen -> all (postedFor seen) (posts v) ->
  all (postedFor seen) (posts (submitReview v)).
Proof.
move=> /andP[r1 r5] us wf; rewrite /submitReview.
have := trim_edges (nr_content (newReview v)).
case e: (trim _) => [|c r] // te /=.
by rewrite all_rcons wf andbT /postedFor /wellFormedReview /= r1 r5 us te.
Qed.

Lemma profileStep_posts seen v e v' :
  profileStep v e = Some v' ->
  [/\ inRange v, userId v \in seen & all (postedFor seen) (posts v)] ->
  [/\ inRange v', userId v' \in seen ++ pmap renderedFor [:: e]
    & all (postedFor (seen ++ pmap renderedFor [:: e])) (posts v')].
Proof.
case: e => [u c|t||i|s|||r] /=; rewrite ?cats0.
- case=> <- [rt us wf]; split=> //=; first by rewrite mem_cat mem_head orbT.
  by apply: sub_all wf => b; rewrite /postedFor mem_cat => /andP[-> ->].
- by case=> <-.
- by case: ifP => // _ [<-].
- case: ifP => // /andP[sh i5] [<-] [rt us wf]; split=> //=.
  by case: i i5 => [|[|[|[|[|i]]]]].
- by case: ifP => // sh [<-].
- by case: ifP => // sh [<-].
- case: ifP => // sh [<-] [rt us wf]; split.
  + by rewrite /inRange /submitReview; case: (trim _).
  + by rewrite /submitReview; case: (trim _).
  + exact: submitReview_posts.
- by case: ifP => // _ [<-] [rt us wf]; case: r => [|[]] /=; split.
Qed.

Lemma profileRun_posts es seen v0 v :
  profileRun v0 es = Some v ->
  [/\ inRange v0, userId v0 \in seen & all (postedFor seen) (posts v0)] ->
  all (postedFor (seen ++ pmap renderedFor es)) (posts v).
Proof.
elim: es seen v0 => [|e es IH] seen v0 /=.
  by case=> <- [_ _]; rewrite cats0.
case e1: (profileStep v0 e) => [v1|] // /IH run inv.
have := run _ (profileStep_posts e1 inv).
by rewrite -catA; case: (e).
Qed.

Lemma profileStep_own u c v e v' :
  profileStep v e = Some v' -> sameProps u c e ->
  [/\ userId v = u, currentUserId v = c
    & showReviewForm v || ~~ nilp (posts v) -> c != u] ->
  [/\ userId v' = u, currentUserId v' = c
    & showReviewForm v' || ~~ nilp (posts v') -> c != u].
Proof.
case: e => [u' c'|t||i|s|||r] /=.
- by case=> <- /andP[/eqP -> /eqP ->] [_ _ own].
- by case=> <-.
- by case: ifP => // /andP[_ ne] [<-] _ [eu ec own]; split=> //= _; rewrite -eu -ec.
- by case: ifP => // /andP[sh i5] [<-] _ [eu ec own]; split=> //= _; apply: own; rewrite sh.
- by case: ifP => // sh [<-] _ [eu ec own]; split=> //= _; apply: own.
- by case: ifP => // sh [<-] _ [eu ec own]; split=> //= ne; apply: own.
- case: ifP => // sh [<-] _ [eu ec own].
  by rewrite /submitReview; case: (trim _) => [|a l]; split=> //= _; apply: own.
- case: ifP => // _ [<-] _ [eu ec own]; case: r => [|[]] /=; split=> //.
  by move=> ne; apply: own; rewrite ne orbT.
Qed.

(** X9.  Every review the form posts is well formed: whatever the user does,
    however the requests settle and whatever props the view is rendered
    with in between, each body posted to [/review] carries a rating from
    1 to 5 and a text that is trimmed and not empty, and names a profile
    the view has been rendered for; and as long as the props stay the
    same, nothing is posted from one's own profile. *)
Theorem posted_reviews_wellformed (profile cur : Z) (es : seq ProfileEvent)
    (v : ProfileView) :
  profileRun (profileInitial profile cur) es = Some v ->
  all (fun b => wellFormedReview b && (rb_user_id b \in shown profile es)) (posts v)
  /\ (all (sameProps profile cur) es -> ~~ nilp (posts v) -> cur != profile).
Proof.
move=> run; split.
  by apply: (@profileRun_posts es [:: profile] _ v run); split; rewrite ?mem_head.
have: [/\ userId (profileInitial profile cur) = profile,
          currentUserId (profileInitial profile cur) = cur
        & showReviewForm (profileInitial profile cur)
          || ~~ nilp (posts (profileInitial profile cur)) -> cur != profile] by [].
elim: es (profileInitial profile cur) run => [|e es IH] v0 /=.
  by case=> <- [_ _ own] _ ne; apply: own; rewrite ne orbT.
case e1: (profileStep v0 e) => [v1|] // run inv /andP[se ses].
exact: IH run (profileStep_own e1 se inv) ses.
Qed.

End Reviews.

Lemma posted_reviews_wellformed_witness :
  let es := [:: OpenReviewForm; ClickStar 2; TypeReview (js " solid work ");
                Rerender 43 7; SubmitReview; ReviewSettled (PostHttp true)] in
  exists v,
    [/\ profileRun (profileInitial 42 7) es = Some v,
        posts v = [:: mkReviewBody 43 3 (js "solid work")]
      & all (fun b => wellFormedReview b && (rb_user_id b \in shown 42 es)) (posts v)
        /\ (all (sameProps 42 7) es -> ~~ nilp (posts v) -> 7%Z != 42%Z)].
Proof.
eexists; split; first by vm_compute; reflexivity.
  by vm_compute.
by apply: (@posted_reviews_wellformed 42 7
             [:: OpenReviewForm; ClickStar 2; TypeReview (js " solid work ");
                 Rerender 43 7; SubmitReview; ReviewSettled (PostHttp true)]); vm_compute.
Defined.

(** The form stays open when the view is rendered for another profile: a
    user who opened it on the profile of user 42 and is then shown their
    own posts a review of themselves. *)
Example review_of_oneself :
  profileRun (profileInitial 42 7)
    [:: OpenReviewForm; Rerender 7 7; TypeReview (js "me"); SubmitReview]
  = Some (mkProfileView 7 7 TabInfo true (mkReviewDraft 5 (js "me"))
            [:: mkReviewBody 7 5 (js "me")] 1).
Proof. by vm_compute. Qed.

(* ------------------------------------------------------------------ *)
(** ** Offers *)

Lemma lookup_obj_put o k v k' :
  lookup k' (obj_put o k v) = if k' == k then Some v else lookup k' o.
Proof.
elim: o => [|[k0 v0] o IH] /=; first by rewrite eq_sym.
case: (k0 =P k) => [->|n0] /=; first by rewrite eq_sym; case: ifP.
rewrite IH; case: (k0 =P k') => [e|//].
by case: (k' =P k) => // e'; case: n0; rewrite e.
Qed.

Lemma hasOfferId_obj offerId offer :
  hasOfferId offerId offer -> exists o, offer = JObj o.
Proof. by case: offer => // o _; exists o. Qed.

Lemma setStatus_hit offerId status offer :
  hasOfferId offerId offer ->
  exists2 o', setStatus offerId status offer = Ok (JObj o')
            & forall k, lookup k o'
                        = if k == js "status" then Some (JStr status)
                          else if getProp offer k is Ok x then x else None.
Proof.
move=> h; have [o e] := hasOfferId_obj h; move: h; rewrite e /hasOfferId /setStatus /=.
move=> ->; exists (obj_put o (js "status") (JStr status)) => // k.
exact: lookup_obj_put.
Qed.

Lemma setStatus_miss offerId status offer y :
  setStatus offerId status offer = Ok y -> ~~ hasOfferId offerId offer -> y = offer.
Proof.
rewrite /setStatus /hasOfferId; case: (getProp _ _) => //= i.
by case: (strict_eq _ _) => // -[<-].
Qed.

Lemma Array_map_nth f s r :
  Array_map f s = Ok r ->
  size r = size s /\ forall i, i < size s -> f (nth JNull s i) = Ok (nth JNull r i).
Proof.
elim: s r => [|x s IH] r /=; first by case=> <-.
case e: (f x) => [y|] //=; case e2: (Array_map f s) => [rest|] //= [<-].
have [sz nt] := IH _ e2; split; first by rewrite /= sz.
by case=> [|i] //=; rewrite ltnS; apply: nt.
Qed.

(** X10.  A successful status change rewrites the offers with that id and
    nothing else: the list keeps its length and order, every other
    offer is returned as it was, and an offer with the id keeps all its
    properties but [status], which now reads the new status; so after
    accepting or rejecting, the offer is no longer pending and shows the
    matching badge.  A failed request changes nothing. *)
Theorem updateOfferStatus_rewrites (offerId : Z) (status : JsString)
    (prev next : seq JsValue) :
  updateOfferStatus offerId status (PostHttp true) prev = Ok next ->
  [/\ size next = size prev,
      forall i, i < size prev -> ~~ hasOfferId offerId (nth JNull prev i) ->
        nth JNull next i = nth JNull prev i,
      forall i, i < size prev -> hasOfferId offerId (nth JNull prev i) ->
        getProp (nth JNull next i) (js "status") = Ok (Some (JStr status))
        /\ (forall k, k != js "status" ->
              getProp (nth JNull next i) k = getProp (nth JNull prev i) k)
        /\ (status != js "pending" -> ~~ isPending (nth JNull next i))
    & updateOfferStatus offerId status PostNetworkError prev = Ok prev
      /\ updateOfferStatus offerId status (PostHttp false) prev = Ok prev].
Proof.
rewrite /updateOfferStatus => /Array_map_nth [sz nt]; split=> // i lt h.
- exact: setStatus_miss (nt _ lt) h.
- have [o' e lk] := setStatus_hit status h; move: (nt _ lt); rewrite e => -[<-] /=.
  split; first by rewrite lk.
  split=> [k nk|np]; first by rewrite lk (negPf nk); case: (nth _ _ _) h.
  by rewrite /isPending /= lk /=; apply: contraNN np => /eqP ->.
Qed.

Lemma updateOfferStatus_rewrites_witness :
  let offer i s := JObj [:: (js "offer_id", JNum i); (js "status", JStr s)] in
  updateOfferStatus 2 (js "accepted") (PostHttp true)
    [:: offer 1%Z (js "pending"); offer 2%Z (js "pending")]
  = Ok [:: offer 1%Z (js "pending"); offer 2%Z (js "accepted")]
  /\ size [:: offer 1%Z (js "pending"); offer 2%Z (js "accepted")] = 2.
Proof.
split; first by [].
by case: (@updateOfferStatus_rewrites 2 (js "accepted")
            [:: JObj [:: (js "offer_id", JNum 1); (js "status", JStr (js "pending"))];
                JObj [:: (js "offer_id", JNum 2); (js "status", JStr (js "pending"))]]
            [:: JObj [:: (js "offer_id", JNum 1); (js "status", JStr (js "pending"))];
                JObj [:: (js "offer_id", JNum 2); (js "status", JStr (js "accepted"))]]
            erefl).
Defined.

Lemma otherOffer_hasOfferId offerId offer b :
  otherOffer offerId offer = Ok b -> b = ~~ hasOfferId offerId offer.
Proof. by rewrite /otherOffer /hasOfferId; case: (getProp _ _) => //= x [<-]. Qed.

(** X11.  A successful deletion removes the offers with that id and keeps the
    others in their order.  The updater raises exactly when the list
    holds [null]; a failed request changes nothing. *)
Theorem deleteOffer_removes (offerId : Z) (myOffers : seq JsValue) :
  [/\ ~~ has isNull myOffers ->
        deleteOffer offerId (PostHttp true) myOffers
        = Ok [seq offer <- myOffers | ~~ hasOfferId offerId offer],
      has isNull myOffers -> deleteOffer offerId (PostHttp true) myOffers = Throw
    & deleteOffer offerId PostNetworkError myOffers = Ok myOffers
      /\ deleteOffer offerId (PostHttp false) myOffers = Ok myOffers].
Proof.
split=> //= [nn|hn].
- elim: myOffers nn => [|x s IH] //=; rewrite negb_or => /andP[nx /IH ->].
  have [i e] := getProp_notNull (js "offer_id") nx.
  by rewrite /otherOffer /hasOfferId e /=; case: (strict_eq _ _).
- apply: Array_filter_null hn => x nx.
  by rewrite /otherOffer (getProp_null _ nx).
Qed.

(** X12.  What a status change shows: after the request of the accept or the
    reject button has succeeded, every offer with that id carries the
    badge of the new status ("Zaakceptowana" or "Odrzucona", with its
    own class) and none of them is pending, so its buttons are gone. *)
Theorem status_change_shows_badge (offerId : Z) (status : JsString)
    (prev next : seq JsValue) (i : nat) :
  status \in [:: js "accepted"; js "rejected"] ->
  updateOfferStatus offerId status (PostHttp true) prev = Ok next ->
  i < size prev -> hasOfferId offerId (nth JNull prev i) ->
  [/\ getProp (nth JNull next i) (js "status") = Ok (Some (JStr status)),
      getStatusBadge status
      = if status == js "accepted"
        then (js "status-badge status-accepted", Some (js "Zaakceptowana"))
        else (js "status-badge status-rejected", Some (js "Odrzucona"))
    & ~~ isPending (nth JNull next i)].
Proof.
move=> st; rewrite /updateOfferStatus => /Array_map_nth [sz nt] lt h.
have [o' e lk] := setStatus_hit status h; move: (nt _ lt); rewrite e => -[<-] /=.
rewrite lk /= /isPending /= lk /=.
by move: st; rewrite !inE => /orP[] /eqP ->.
Qed.

Lemma status_change_shows_badge_witness :
  let prev := [:: JObj [:: (js "offer_id", JNum 1); (js "status", JStr (js "pending"))];
                  JObj [:: (js "offer_id", JNum 2); (js "status", JStr (js "pending"))]] in
  let next := [:: JObj [:: (js "offer_id", JNum 1); (js "status", JStr (js "pending"))];
                  JObj [:: (js "offer_id", JNum 2); (js "status", JStr (js "rejected"))]] in
  [/\ js "rejected" \in [:: js "accepted"; js "rejected"],
      updateOfferStatus 2 (js "rejected") (PostHttp true) prev = Ok next,
      hasOfferId 2 (nth JNull prev 1)
    & ~~ isPending (nth JNull next 1)].
Proof.
split; [by []|by []|by []|].
by case: (@status_change_shows_badge 2 (js "rejected")
            [:: JObj [:: (js "offer_id", JNum 1); (js "status", JStr (js "pending"))];
                JObj [:: (js "offer_id", JNum 2); (js "status", JStr (js "pending"))]]
            [:: JObj [:: (js "offer_id", JNum 1); (js "status", JStr (js "pending"))];
                JObj [:: (js "offer_id", JNum 2); (js "status", JStr (js "rejected"))]]
            1 isT erefl isT isT).
Defined.

Lemma obj_put_put o k v1 v2 : obj_put (obj_put o k v1) k v2 = obj_put o k v2.
Proof.
elim: o => [|[k0 v0] o IH] /=; first by rewrite eqxx.
by case: (k0 =P k) => [_|/eqP nk] /=; rewrite ?eqxx // (negPf nk) IH.
Qed.

Lemma setStatus_again offerId s1 s2 x y :
  setStatus offerId s1 x = Ok y -> setStatus offerId s2 y = setStatus offerId s2 x.
Proof.
case h: (hasOfferId offerId x); last by move/setStatus_miss => -> //; rewrite h.
have [o e] := hasOfferId_obj h; move: h; rewrite e /hasOfferId /setStatus /=.
move=> h; rewrite h => -[<-] /=.
by rewrite lookup_obj_put /= h obj_put_put.
Qed.

(** X19.  The last decision wins: after a successful status change for an
    offer id, a second successful change for the same id gives the list
    the second change alone would have given; in particular repeating a
    change alters nothing. *)
Theorem status_changes_compose (offerId : Z) (s1 s2 : JsString) (prev mid : seq JsValue) :
  updateOfferStatus offerId s1 (PostHttp true) prev = Ok mid ->
  updateOfferStatus offerId s2 (PostHttp true) mid
  = updateOfferStatus offerId s2 (PostHttp true) prev
  /\ updateOfferStatus offerId s1 (PostHttp true) mid = Ok mid.
Proof.
rewrite /updateOfferStatus => e.
have again : forall s, Array_map (setStatus offerId s) mid
                       = Array_map (setStatus offerId s) prev.
  move=> s; elim: prev mid e => [|x prev IH] mid /=; first by case=> <-.
  case e1: (setStatus offerId s1 x) => [y|] //=.
  case e2: (Array_map _ prev) => [rest|] //= [<-] /=.
  by rewrite (setStatus_again s e1) (IH _ e2).
by split; rewrite again.
Qed.

Lemma status_changes_compose_witness :
  let offer i s := JObj [:: (js "offer_id", JNum i); (js "status", JStr s)] in
  updateOfferStatus 2 (js "accepted") (PostHttp true)
    [:: offer 1%Z (js "pending"); offer 2%Z (js "pending")]
  = Ok [:: offer 1%Z (js "pending"); offer 2%Z (js "accepted")]
  /\ updateOfferStatus 2 (js "rejected") (PostHttp true)
       [:: offer 1%Z (js "pending"); offer 2%Z (js "accepted")]
     = Ok [:: offer 1%Z (js "pending"); offer 2%Z (js "rejected")].
Proof.
split; first by [].
by case: (@status_changes_compose 2 (js "accepted") (js "rejected")
            [:: JObj [:: (js "offer_id", JNum 1); (js "status", JStr (js "pending"))];
                JObj [:: (js "offer_id", JNum 2); (js "status", JStr (js "pending"))]]
            [:: JObj [:: (js "offer_id", JNum 1); (js "status", JStr (js "pending"))];
                JObj [:: (js "offer_id", JNum 2); (js "status", JStr (js "accepted"))]]
            erefl) => ->.
Defined.

(* ------------------------------------------------------------------ *)
(** ** Splitting and decoding *)

Example atob_examples :
  [/\ atob (Some (js "e30=")) = Ok (js "{}"),
      atob (Some (js "aGk=")) = Ok (js "hi"),
      atob (Some (js " Y Q = = ")) = Ok (js "a"),
      atob (Some (js "YQ")) = Ok (js "a")
    & atob (Some (js "YQ=")) = Throw /\ atob None = Throw].
Proof. by []. Qed.

Lemma split_nosep sep s : sep \notin s -> split sep s = [:: s].
Proof.
elim: s => [|c s IH] //=; rewrite inE negb_or eq_sym => /andP[/negPf -> /IH ->].
by [].
Qed.

Lemma split_cat sep a b :
  sep \notin a -> split sep (a ++ sep :: b) = a :: split sep b.
Proof.
elim: a => [|c a IH] /=; first by rewrite eqxx.
by rewrite inE negb_or eq_sym => /andP[/negPf -> /IH ->].
Qed.

Lemma dropEq_keeps r c : c != 61%num -> c \in r -> c \in dropEq r.
Proof.
case: r => [|x r] //= nc; case: (x =P 61%num) => // ->.
by rewrite inE (negPf nc).
Qed.

Lemma stripPadding_keeps d c : c != 61%num -> c \in d -> c \in stripPadding d.
Proof.
move=> nc cd; rewrite /stripPadding; case: ifP => // _.
by rewrite mem_rev; do 2!apply: dropEq_keeps => //; rewrite mem_rev.
Qed.

Lemma atob_notBase64 s : has notBase64 s -> atob (Some s) = Throw.
Proof.
case/hasP=> c cs /and3P[nw nb ne]; rewrite /atob.
have cd : c \in stripPadding [seq c <- s | ~~ isAsciiWhitespace c].
  by apply: stripPadding_keeps => //; rewrite mem_filter nw.
case: ifP => // _; case: allP => // /(_ _ cd).
by rewrite nb.
Qed.

(* ------------------------------------------------------------------ *)
(** ** The session *)

Section Session.
Context {P : Platform}.

(** X13.  A token that is not a JWT the browser can decode ends the session.
    When the stored token has no second dot-separated segment, or that
    segment holds a character [atob] rejects (such as the [-] and [_]
    of the URL-safe alphabet), the effect removes the token from
    [localStorage], sets [token] to [null], calls [fetchUser] for
    nobody and ends the loading state. *)
Theorem malformed_token_is_discarded (a : AuthState) (t : JsString) :
  auth_token a = Some t -> t <> [::] ->
  (forall seg, at_index (split 46 t) 1 = Some seg -> has notBase64 seg) ->
  authEffect a = mkAuth (auth_user a) None false None (auth_fetches a).
Proof.
rewrite /authEffect => -> nt bad; case: t nt bad => [|c r] // _ bad.
rewrite /decodeToken; case e: (at_index _ _) => [seg|] //=.
by rewrite (atob_notBase64 (bad _ e)).
Qed.

Lemma authStep_mirrors a e :
  auth_token a = localStorage_token a ->
  auth_token (authStep a e) = localStorage_token (authStep a e).
Proof.
case: e => [|r|r|] //= eq.
- rewrite /authEffect; case: (auth_token a) eq => [[|c t]|] //= eq.
  by case: (decodeToken _).
- by case: r => // -[] // [u|].
- by case: r => // -[] // [t|].
Qed.

(** X14.  The token in memory and the token in [localStorage] never differ:
    every write goes to both, so the requests that read the one and the
    requests that read the other ([fetchOrders] of the dashboard) carry
    the same token.  After [logout] both are gone and so is the user. *)
Theorem token_mirrors_storage (stored : option JsString) (es : seq AuthEvent) :
  let a := foldl authStep (authInitial stored) es in
  auth_token a = localStorage_token a
  /\ (forall a0, [/\ auth_token (logout a0) = None,
                     localStorage_token (logout a0) = None
                   & auth_user (logout a0) = JNull]).
Proof.
move=> a; split=> //; rewrite {}/a.
have: auth_token (authInitial stored) = localStorage_token (authInitial stored) by [].
elim: es (authInitial stored) => [|e es IH] a0 //= eq.
by apply: IH; apply: authStep_mirrors.
Qed.

End Session.

Lemma malformed_token_is_discarded_witness :
  let a := authInitial (Some (js "eyJhbGciOiJIUzI1NiJ9.eyJzdWIiOjF9_w.sig")) in
  [/\ auth_token a = Some (js "eyJhbGciOiJIUzI1NiJ9.eyJzdWIiOjF9_w.sig"),
      js "eyJhbGciOiJIUzI1NiJ9.eyJzdWIiOjF9_w.sig" <> [::],
      at_index (split 46 (js "eyJhbGciOiJIUzI1NiJ9.eyJzdWIiOjF9_w.sig")) 1
      = Some (js "eyJzdWIiOjF9_w")
    & @authEffect utc a = mkAuth JNull None false None [::]].
Proof.
split; [by []|by []|by []|].
apply: (@malformed_token_is_discarded utc
          (authInitial (Some (js "eyJhbGciOiJIUzI1NiJ9.eyJzdWIiOjF9_w.sig")))
          (js "eyJhbGciOiJIUzI1NiJ9.eyJzdWIiOjF9_w.sig")) => //.
by move=> seg [<-].
Defined.

(* ------------------------------------------------------------------ *)
(** ** Searching and uploading *)

Section SearchFacts.
Variable toLowerCase : JsString -> JsString.

Lemma Array_filter_found q s r :
  Array_filter (matchesQuery toLowerCase q) s = Ok r ->
  r = [seq o <- s | found toLowerCase q o].
Proof.
elim: s r => [|x s IH] r /=; first by case=> <-.
rewrite /found; case e: (matchesQuery _ q x) => [b|] //=.
by case e2: (Array_filter _ s) => [rest|] //= [<-]; rewrite (IH _ e2).
Qed.

Lemma matchesQuery_refine q1 q2 o b1 :
  includes (toLowerCase q2) (toLowerCase q1) ->
  matchesQuery toLowerCase q1 o = Ok b1 -> found toLowerCase q2 o -> b1.
Proof.
rewrite /found /matchesQuery /includes => sub.
case: (lowered _ o (js "order_name")) => [n|] //=.
case i2: (infix (toLowerCase q2) n).
  by rewrite (infix_trans sub i2) => -[<-].
case: (infix (toLowerCase q1) n); first by case=> <-.
case: (lowered _ o (js "order_desc")) => [d|] //= [<-].
exact: infix_trans.
Qed.

(** X15.  Typing more narrows the result.  A query that is not blank lists
    the orders it finds, in the order of [orders]; and when the
    lower-cased query contains the lower-cased previous query, the new
    list is the previous list with the orders the new query does not
    find removed. *)
Theorem refined_query_narrows (orders r1 r2 : seq JsValue) (q1 q2 : JsString) :
  includes (toLowerCase q2) (toLowerCase q1) -> trim q2 <> [::] ->
  filterOrders toLowerCase orders q1 = Ok r1 ->
  filterOrders toLowerCase orders q2 = Ok r2 ->
  r2 = [seq o <- orders | found toLowerCase q2 o]
  /\ r2 = [seq o <- r1 | found toLowerCase q2 o].
Proof.
move=> sub /eqP/negPf nb; rewrite /filterOrders nb => e1 /Array_filter_found e2.
split=> //; rewrite e2; case: ifP e1 => _; first by case=> <-.
elim: orders r1 {e2} => [|x s IH] r1 /=; first by case=> <-.
case m1: (matchesQuery _ q1 x) => [b1|] //=.
case f1: (Array_filter _ s) => [rest|] //= [<-].
rewrite (IH _ f1); case f2: (found _ q2 x).
  by rewrite (matchesQuery_refine sub m1 f2) /= f2.
by case: b1 {m1} => //=; rewrite f2.
Qed.

End SearchFacts.

(** X16.  The stored image is the payload of the data URL: for a result
    [prefix,data] with no comma in either part, the array grows by
    [data]; a result without a comma adds [undefined], and [null]
    raises. *)
Theorem uploaded_image_is_payload (images : seq (option JsString)) :
  [/\ forall prefix data, 44%num \notin prefix -> 44%num \notin data ->
        onloadend (Some (prefix ++ 44%num :: data)) images = Ok (rcons images (Some data)),
      forall s, 44%num \notin s -> onloadend (Some s) images = Ok (rcons images None)
    & onloadend None images = Throw].
Proof.
split=> // [prefix data np nd|s ns]; rewrite /onloadend.
- by rewrite split_cat // split_nosep.
- by rewrite split_nosep.
Qed.

Lemma refined_query_narrows_witness :
  [/\ includes (asciiLower (js "lapt")) (asciiLower (js "LAP")),
      trim (js "lapt") <> [::],
      filterOrders asciiLower ex_orders (js "LAP") = Ok (take 2 ex_orders),
      filterOrders asciiLower ex_orders (js "lapt") = Ok (take 1 ex_orders)
    & take 1 ex_orders = [seq o <- take 2 ex_orders | found asciiLower (js "lapt") o]].
Proof.
split; [by []|by []|by []|by []|].
by case: (@refined_query_narrows asciiLower ex_orders (take 2 ex_orders)
            (take 1 ex_orders) (js "LAP") (js "lapt") isT (fun e => ltac:(discriminate e))
            erefl erefl).
Defined.

(* ------------------------------------------------------------------ *)
(** ** Authors of reviews *)

Lemma obj_get_set o k v k' :
  obj_get (obj_set o k v) k' = if k' == k then Some v else obj_get o k'.
Proof.
rewrite /obj_set /= eq_sym; case: (k' =P k) => // /eqP nk.
elim: o => [|[k0 v0] o IH] //=; case: (k0 =P k) => [->|_] /=.
  by rewrite eq_sym (negPf nk).
by rewrite IH.
Qed.

Lemma settled_users k r d :
  dir_users (fetchReviewer_settled k r d)
  = if r is ProfileHttp true (Some u) then obj_set (dir_users d) k u else dir_users d.
Proof. by case: r => // -[] // []. Qed.

Lemma settled_other k r d k' :
  k' != k ->
  obj_get (dir_users (fetchReviewer_settled k r d)) k' = obj_get (dir_users d) k'.
Proof.
move=> nk; rewrite settled_users; case: r => // -[] // [u|] //.
by rewrite obj_get_set (negPf nk).
Qed.

Lemma settled_truthy k r d k' :
  truthy (obj_get (dir_users d) k') ->
  (if r is ProfileHttp true (Some u) then truthy (Some u) else true) ->
  truthy (obj_get (dir_users (fetchReviewer_settled k r d)) k').
Proof.
move=> tr; rewrite settled_users; case: r => // -[] // [u|] // tu.
by rewrite obj_get_set; case: ifP.
Qed.

Lemma fetchReviewer_users seen k d : dir_users (fetchReviewer seen k d) = dir_users d.
Proof. by rewrite /fetchReviewer /fetchUserDetails; case: ifP. Qed.

(** X17.  The authors of reviews are fetched once per review, not once per
    author: the loop asks for the author of every review whose author
    is missing from the map its closure reads, also when it has just
    stored that author for an earlier review.  Entries of other users
    are left as they were, and when every answer stores a profile all
    the authors asked for are in the map afterwards. *)
Theorem reviewers_fetched_per_review (seen : ProfileMap) (reviewerIds : seq Z)
    (net : seq ProfileResponse) (d : Directory) :
  let after := fetchReviews_loop seen reviewerIds net d in
  [/\ after.2 = [seq i <- reviewerIds | (i != 0%Z) && ~~ truthy (obj_get seen i)],
      forall k, k \notin reviewerIds ->
        obj_get (dir_users after.1) k = obj_get (dir_users d) k
    & all okAnswer net -> size after.2 <= size net ->
      forall k, k \in after.2 -> truthy (obj_get (dir_users after.1) k)].
Proof.
move=> after; rewrite {}/after; split.
- elim: reviewerIds net d => [|i ids IH] net d //=.
  case: ifP => _ /=; last exact: IH.
  case: ifP => _ /=; first exact: IH.
  by case e: (fetchReviews_loop _ _ _ _) (IH (behead net)
       (fetchReviewer_settled i (head ProfileNetworkError net) (fetchReviewer seen i d)))
     => [d2 asked] /= ->.
- elim: reviewerIds net d => [|i ids IH] net d k //=.
  rewrite inE negb_or => /andP[ki kn]; case: ifP => _; last exact: IH.
  case: ifP => _; first by rewrite IH // fetchReviewer_users.
  case e: (fetchReviews_loop _ _ _ _) (IH (behead net)
     (fetchReviewer_settled i (head ProfileNetworkError net) (fetchReviewer seen i d))
     k kn) => [d2 asked] /= ->.
  by rewrite settled_other // fetchReviewer_users.
- have keep : forall ids net0 d0 k, all okAnswer net0 ->
      truthy (obj_get (dir_users d0) k) ->
      truthy (obj_get (dir_users (fetchReviews_loop seen ids net0 d0).1) k).
    elim=> [|i ids IH] net0 d0 k //= ok tr.
    case: ifP => _; last exact: IH.
    case: ifP => _; first by apply: IH => //; rewrite fetchReviewer_users.
    case e: (fetchReviews_loop _ _ _ _) (IH (behead net0)
       (fetchReviewer_settled i (head ProfileNetworkError net0) (fetchReviewer seen i d0))
       k) => [d2 asked] /=; apply; first by case: net0 ok {e} => //= r n /andP[].
    apply: settled_truthy; first by rewrite fetchReviewer_users.
    by case: net0 ok {e} => [|[|[] [u|]] n] //= /andP[].
  elim: reviewerIds net d => [|i ids IH] net d //= ok.
  case: ifP => _; last exact: IH.
  case: ifP => _; first exact: IH.
  case e: (fetchReviews_loop _ _ _ _) (IH (behead net)
     (fetchReviewer_settled i (head ProfileNetworkError net) (fetchReviewer seen i d)))
     (keep ids (behead net)
     (fetchReviewer_settled i (head ProfileNetworkError net) (fetchReviewer seen i d)))
     => [d2 asked] /= IH1 keep1.
  case: net ok IH1 keep1 {e} => [|r n] //= /andP[okr okn] IH1 keep1 sz k.
  rewrite inE => /orP[/eqP ->|ka]; last exact: IH1.
  apply: keep1 => //; rewrite settled_users; case: r okr => // -[] // [u|] // tu.
  by rewrite obj_get_set eqxx.
Qed.

(* ------------------------------------------------------------------ *)
(** ** Received offers *)



